(** * Tetris block randomizer: the draw engine, the reveal animation and
      the persisted configuration of [src/app/page.tsx]

    The page keeps a list of blocks, each with a remaining [count] and a
    starting [initial] count, draws one block at a time without replacement
    with probability proportional to the remaining counts, and stores the
    starting counts in [localStorage].

    Conventions of the embedding.
    - A JavaScript [number] that holds a count is an integer [Z]; nothing in
      the code rounds or clamps a count except [Math.max(0, count - 1)], which
      is written out.  The result of a [Number(...)] coercion is a [number]:
      [NaN] or an integer.  The numbers of the code are binary64 values, so
      an integer of the model stands for the double of that value, and sums
      and differences of the model are those of the code as long as they
      stay within [2^53] in magnitude ([exactCounts] below).  Properties that
      need the exact value of a sum or of [count - 1] carry that condition;
      comparisons, assignments and the shape of the lists do not.  The
      editor and the loader also let through counts with a fractional part,
      for which the draw engine is written once more in [Fractional], and
      infinite counts, which are outside the model.
    - React state is passed explicitly: [setX(v)] replaces the field, and
      [setX(prev => f prev)] applies [f] to the current value of the field,
      which may differ from the value captured by a closure.
    - [Math.floor(Math.random() * total)] and [Date.now()] are inputs: the
      random source and the rounding of its product are not modelled. *)

From Stdlib Require Import ZArith QArith Qround Qminmax Lia.
From Stdlib Require Import Lqa.
From stdpp Require Import base list strings.

#[local] Open Scope Z_scope.

(** ** Data model *)

(** [type Block = { id; name; src; count; initial }] *)
Module Block.
Record t : Type := mk
  { id : string; name : string; src : string; count : Z; initial : Z }.

(** [{ ...b, count: c }] *)
Definition with_count (b : t) (c : Z) : t :=
  {| id := id b; name := name b; src := src b; count := c;
     initial := initial b |}.

(** [{ ...p, count: n, initial: n }] *)
Definition refill (b : t) (n : Z) : t :=
  {| id := id b; name := name b; src := src b; count := n; initial := n |}.
End Block.

(** The entries of [DEFAULT_INITIAL] and of [savedConfig]:
    [{ id; name; src; initial }]. *)
Module Config.
Record t : Type := mk
  { id : string; name : string; src : string; initial : Z }.

(** [{ ...d, initial: n }] *)
Definition with_initial (d : t) (n : Z) : t :=
  {| id := id d; name := name d; src := src d; initial := n |}.

(** [{ id: b.id, name: b.name, src: b.src, count: b.initial,
      initial: b.initial }] *)
Definition toBlock (c : t) : Block.t :=
  Block.mk (id c) (name c) (src c) (initial c) (initial c).
End Config.

Definition DEFAULT_INITIAL : list Config.t :=
  [ Config.mk "red" "Merah" "/red.svg" 6;
    Config.mk "blue" "Biru" "/blue.svg" 6;
    Config.mk "green" "Hijau" "/green.svg" 6;
    Config.mk "pink" "Pink" "/pink.svg" 6;
    Config.mk "grey" "Abu" "/grey.svg" 6;
    Config.mk "orange" "Oranye" "/orange.svg" 6;
    Config.mk "yellow" "Kuning" "/yellow.svg" 6;
    Config.mk "purple" "Ungu" "/purple.svg" 6 ].

(** [arr[i]] for a JavaScript index: [undefined] (here [None]) when [i] is
    negative or past the end. *)
Definition js_index {A : Type} (arr : list A) (i : Z) : option A :=
  if i <? 0 then None else arr !! Z.to_nat i.

(** ** Draw engine *)

(** [blocks.reduce((s, b) => s + b.count, 0)] *)
Definition totalRemaining (blocks : list Block.t) : Z :=
  foldl (fun s b => s + Block.count b) 0 blocks.

(** The sum of the magnitudes of the counts. *)
Definition totalMagnitude (blocks : list Block.t) : Z :=
  foldl (fun s b => s + Z.abs (Block.count b)) 0 blocks.

(** The counts are integers whose magnitudes sum to at most [2^53].  Every
    running sum the walk forms from such a list, and [count - 1] for each of
    its counts that is positive, is then an integer of magnitude at most
    [2^53], which binary64 holds exactly: on such a list the arithmetic of
    the model is the arithmetic of the code. *)
Definition exactCounts (blocks : list Block.t) : Prop :=
  totalMagnitude blocks <= 2 ^ 53.

(** The [for] loop of [pickAndDecrement], entered at index [i] with running
    sum [cum] over the blocks [bs] still to visit.  The result is the value
    of [pickedIndex] after the loop: the index at which it broke out, or
    [-1]. *)
Fixpoint walk (bs : list Block.t) (r cum i : Z) : Z :=
  match bs with
  | [] => -1
  | b :: rest =>
      let cum' := cum + Block.count b in
      if r <? cum' then i else walk rest r cum' (i + 1)
  end.

(** [pickedIndex] after the fallback
    [if (pickedIndex === -1) pickedIndex = blocks.length - 1]. *)
Definition pickedIndex (blocks : list Block.t) (r : Z) : Z :=
  let w := walk blocks r 0 0 in
  if w =? -1 then Z.of_nat (length blocks) - 1 else w.

(** The updater handed to [setBlocks]:
    [prev.map((b, i) => i === pickedIndex
        ? { ...b, count: Math.max(0, b.count - 1) } : b)]. *)
Definition decrementAt (pickedIndex : Z) (prev : list Block.t)
  : list Block.t :=
  imap (fun i b =>
          if Z.of_nat i =? pickedIndex
          then Block.with_count b (Z.max 0 (Block.count b - 1))
          else b) prev.

(** [pickAndDecrement()].  [blocks] is the list the closure captured, [r] the
    value of [Math.floor(Math.random() * total)] and [prev] the list held by
    the state when the queued updater runs.  The result is the returned
    block ([None] for [undefined]) and the new list. *)
Definition pickAndDecrement (blocks : list Block.t) (r : Z)
    (prev : list Block.t) : option Block.t * list Block.t :=
  let total := totalRemaining blocks in
  if total <=? 0 then (None, prev)
  else
    let i := pickedIndex blocks r in
    (js_index blocks i, decrementAt i prev).

(** [blocks.filter(b => b.count > 0)] *)
Definition availableBlocks (blocks : list Block.t) : list Block.t :=
  filter (fun b => 0 < Block.count b) blocks.

(** [getSingleRemainingBlock()] *)
Definition getSingleRemainingBlock (blocks : list Block.t)
  : option Block.t :=
  match availableBlocks blocks with
  | [b] => Some b
  | _ => None
  end.

(** ** Configuration store *)

(** The result of a [Number(...)] coercion, restricted to what a count can
    be: [NaN] or an integer. *)
Inductive number : Type :=
  | NaN
  | Int (z : Z).

(** [n || d] for a coerced number [n]: [NaN] and [0] are falsy. *)
Definition or_default (n : number) (d : Z) : Z :=
  match n with
  | NaN => d
  | Int z => if z =? 0 then d else z
  end.

(** One element [p] of the parsed array, as far as the code looks at it.
    [null] has no properties, so reading [p.id] throws.  Of any other value
    the code reads [p.id], which can only be [===] to a built-in id when it
    is a string, and [Number(p.initial)]; extra fields are never read. *)
Inductive element : Type :=
  | ENull
  | EValue (eid : option string) (einitial : number).

(** What [localStorage.getItem(STORAGE_KEY)] holds. *)
Inductive item : Type :=
  | NoItem                        (* [null] or the empty string: [!raw] *)
  | BadJson                       (* [JSON.parse] throws *)
  | NotArray                      (* parses, but [!Array.isArray(parsed)] *)
  | JsonArray (parsed : list element).

(** [localStorage]: reading or writing it may throw (storage disabled, quota
    exceeded). *)
Record Storage : Type := mkStorage
  { readable : bool; writable : bool; content : item }.

(** A JavaScript computation that returns or throws. *)
Inductive outcome (A : Type) : Type :=
  | Returned (a : A)
  | Thrown.
Arguments Returned {A} a.
Arguments Thrown {A}.

Definition bind {A B : Type} (m : outcome A) (k : A -> outcome B)
  : outcome B :=
  match m with
  | Returned a => k a
  | Thrown => Thrown
  end.

Notation "'let*' x := m 'in' k" := (bind m (fun x => k))
  (at level 10, x pattern, m at level 100, k at level 200).

(** [try { body } catch (e) { return fallback }] *)
Definition try_catch {A : Type} (body : outcome A) (fallback : A) : A :=
  match body with
  | Returned a => a
  | Thrown => fallback
  end.

(** [parsed.find((p) => p.id === id)]: the first matching element
    ([None] for [undefined]); throws at a [null] element reached before a
    match. *)
Fixpoint find_id (parsed : list element) (i : string)
  : outcome (option number) :=
  match parsed with
  | [] => Returned None
  | ENull :: _ => Thrown
  | EValue eid einitial :: rest =>
      if decide (eid = Some i) then Returned (Some einitial)
      else find_id rest i
  end.

(** [defaults.map((d) => { const found = parsed.find(...);
      return found ? { ...d, initial: Number(found.initial) || d.initial }
                   : d; })] *)
Fixpoint merge (defaults : list Config.t) (parsed : list element)
  : outcome (list Config.t) :=
  match defaults with
  | [] => Returned []
  | d :: ds =>
      let* found := find_id parsed (Config.id d) in
      let d' := match found with
                | Some n =>
                    Config.with_initial d (or_default n (Config.initial d))
                | None => d
                end in
      let* rest := merge ds parsed in
      Returned (d' :: rest)
  end.

(** [localStorage.getItem(STORAGE_KEY)] *)
Definition getItem (s : Storage) : outcome item :=
  if readable s then Returned (content s) else Thrown.

(** [loadSavedConfig()] over a built-in list [defaults]. *)
Definition loadSavedConfigFrom (defaults : list Config.t) (s : Storage)
  : list Config.t :=
  try_catch
    (let* raw := getItem s in
     match raw with
     | NoItem => Returned defaults
     | BadJson => Thrown
     | NotArray => Returned defaults
     | JsonArray parsed => merge defaults parsed
     end)
    defaults.

(** [loadSavedConfig()] *)
Definition loadSavedConfig (s : Storage) : list Config.t :=
  loadSavedConfigFrom DEFAULT_INITIAL s.

(** [localStorage.setItem(STORAGE_KEY, JSON.stringify(config))]: the stored
    text parses back to the array of [{ id, initial }] objects.  This holds
    for the finite numbers of the model; [JSON.stringify] writes an infinite
    [initial] as [null]. *)
Definition setItem (s : Storage) (config : list (string * Z))
  : outcome Storage :=
  if writable s
  then Returned
         {| readable := readable s; writable := writable s;
            content :=
              JsonArray (map (fun c => EValue (Some c.1) (Int c.2)) config) |}
  else Thrown.

(** ** Page state *)

Record State : Type := mkState
  { blocks : list Block.t;
    savedConfig : list Config.t;
    selected : option Block.t;
    hasStarted : bool;
    isAnimating : bool }.

Definition setBlocks (st : State) (v : list Block.t) : State :=
  mkState v (savedConfig st) (selected st) (hasStarted st) (isAnimating st).
Definition setSavedConfig (st : State) (v : list Config.t) : State :=
  mkState (blocks st) v (selected st) (hasStarted st) (isAnimating st).
Definition setSelected (st : State) (v : option Block.t) : State :=
  mkState (blocks st) (savedConfig st) v (hasStarted st) (isAnimating st).
Definition setHasStarted (st : State) (v : bool) : State :=
  mkState (blocks st) (savedConfig st) (selected st) v (isAnimating st).
Definition setIsAnimating (st : State) (v : bool) : State :=
  mkState (blocks st) (savedConfig st) (selected st) (hasStarted st) v.

(** The values given to [useState]. *)
Definition initialState : State :=
  {| blocks := map Config.toBlock DEFAULT_INITIAL;
     savedConfig := DEFAULT_INITIAL;
     selected := None;
     hasStarted := false;
     isAnimating := false |}.

(** The mount effect: [const cfg = loadSavedConfig(); setSavedConfig(...);
    setBlocks(...)]. *)
Definition mount (s : Storage) (st : State) : State :=
  let cfg := loadSavedConfig s in
  setBlocks (setSavedConfig st cfg) (map Config.toBlock cfg).

(** [saveConfig(config)].  The write is not guarded: when it throws, so does
    [saveConfig], before [setSavedConfig] is reached. *)
Definition saveConfig (config : list (string * Z)) (s : Storage) (st : State)
  : outcome (Storage * State) :=
  let* s' := setItem s config in
  let merged :=
    map (fun d =>
           match List.find (fun c => bool_decide (c.1 = Config.id d)) config
           with
           | Some found =>
               Config.with_initial d
                 (or_default (Int found.2) (Config.initial d))
           | None => d
           end) DEFAULT_INITIAL in
  Returned (s', setSavedConfig st merged).

(** The [onSave] callback given to [BlocksList]. *)
Definition onSave (i : string) (newInitial : Z) (s : Storage) (st : State)
  : outcome (Storage * State) :=
  let updatedSaved :=
    map (fun c => if decide (Config.id c = i)
                  then Config.with_initial c newInitial else c)
        (savedConfig st) in
  let* (s', st1) :=
    saveConfig (map (fun c => (Config.id c, Config.initial c)) updatedSaved)
      s st in
  let st2 := setSavedConfig st1 updatedSaved in
  Returned
    (s', setBlocks st2
           (map (fun p => if decide (Block.id p = i)
                          then Block.refill p newInitial else p)
                (blocks st2))).

(** [handleReset()] *)
Definition handleReset (st : State) : State :=
  let base := match savedConfig st with
              | [] => DEFAULT_INITIAL
              | _ => savedConfig st
              end in
  setHasStarted (setSelected (setBlocks st (map Config.toBlock base)) None)
    false.

(** ** Reveal animation *)

(** What the closure [animate] captured when [animateSelection] started:
    [startTime], [duration], the [blocks] of that render, [availableBlocks],
    and the mutable [frameIndex]. *)
Record Animation : Type := mkAnimation
  { startTime : Z;
    duration : positive;
    captured : list Block.t;
    available : list Block.t;
    frameIndex : Z }.

(** [easeOut(t) = 1 - Math.pow(1 - t, 2)] *)
Definition easeOut (t : Q) : Q := (1 - (1 - t) ^ 2)%Q.

(** [Math.min(1, elapsed / duration)].  The code computes [progress] and the
    displayed index in double precision; they are modelled in exact rational
    arithmetic, which agrees with the code on the two tests [progress < 0.7]
    and [progress < 1] for a duration of 2000 ms. *)
Definition progressOf (elapsed : Z) (d : positive) : Q :=
  Qmin 1 (elapsed # d).

(** The index of the candidate shown at a tick. *)
Definition displayIndex (progress : Q) (frameIndex n : Z) : Z :=
  if Qlt_le_dec progress (7 # 10) then Z.rem frameIndex n
  else
    let lastPhaseProgress := ((progress - (7 # 10)) / (3 # 10))%Q in
    let eased := easeOut lastPhaseProgress in
    Qfloor (eased * inject_Z (n - 1)).

(** One call of [animate()]: [now] is [Date.now()], [r] the random integer
    used if this is the final tick.  The second component is the closure
    handed to [requestAnimationFrame], if any. *)
Definition animate (a : Animation) (now r : Z) (st : State)
  : State * option Animation :=
  let elapsed := now - startTime a in
  let progress := progressOf elapsed (duration a) in
  let frameIndex' := frameIndex a + 1 in
  let index :=
    displayIndex progress frameIndex' (Z.of_nat (length (available a))) in
  let st1 := setSelected st (js_index (available a) index) in
  if Qlt_le_dec progress 1 then
    (st1,
     Some (mkAnimation (startTime a) (duration a) (captured a) (available a)
             frameIndex'))
  else
    let '(finalPick, blocks') :=
      pickAndDecrement (captured a) r (blocks st1) in
    let st2 := setBlocks st1 blocks' in
    let st3 := match finalPick with
               | Some p => setSelected st2 (Some p)
               | None => st2
               end in
    (setIsAnimating st3 false, None).

(** [animateSelection(duration)]: [t0] is the first [Date.now()], [now] the
    one read by the synchronous first call of [animate()]. *)
Definition animateSelection (d : positive) (t0 now r : Z) (st : State)
  : State * option Animation :=
  match availableBlocks (blocks st) with
  | [] => (st, None)
  | [_] =>
      let '(finalPick, blocks') :=
        pickAndDecrement (blocks st) r (blocks st) in
      let st1 := setBlocks st blocks' in
      (match finalPick with
       | Some p => setSelected st1 (Some p)
       | None => st1
       end, None)
  | avail =>
      animate (mkAnimation t0 d (blocks st) avail 0) now r
        (setIsAnimating st true)
  end.

(** [handleMulai()] *)
Definition handleMulai (t0 now r : Z) (st : State)
  : State * option Animation :=
  if isAnimating st || (totalRemaining (blocks st) <=? 0) then (st, None)
  else
    let '(st1, fr) :=
      match getSingleRemainingBlock (blocks st) with
      | Some _ =>
          let '(picked, blocks') :=
            pickAndDecrement (blocks st) r (blocks st) in
          let st1 := setBlocks st blocks' in
          (match picked with
           | Some p => setSelected st1 (Some p)
           | None => st1
           end, None)
      | None => animateSelection 2000 t0 now r st
      end in
    (setHasStarted st1 true, fr).

(** [handleAcak()] *)
Definition handleAcak (t0 now r : Z) (st : State)
  : State * option Animation :=
  if isAnimating st || (totalRemaining (blocks st) <=? 0) then (st, None)
  else animateSelection 2000 t0 now r st.

(** ** The page as a transition system *)

(** The page state, the animation frame that is scheduled (if any) and the
    browser's storage. *)
Record World : Type := mkWorld
  { page : State; scheduled : option Animation; storage : Storage }.

Inductive event : Type :=
  | Mount                               (* the mount effect runs *)
  | ClickMulai (t0 now r : Z)
  | ClickAcak (t0 now r : Z)
  | Frame (now r : Z)                   (* the display refresh fires *)
  | ClickReset
  | Edit (i : string) (newInitial : Z). (* the editor's save button *)

(** A handler that starts no animation leaves the scheduled frame alone. *)
Definition keep (old new : option Animation) : option Animation :=
  match new with
  | Some a => Some a
  | None => old
  end.

Definition step (w : World) (e : event) : World :=
  match e with
  | Mount => mkWorld (mount (storage w) (page w)) (scheduled w) (storage w)
  | ClickMulai t0 now r =>
      let '(st, fr) := handleMulai t0 now r (page w) in
      mkWorld st (keep (scheduled w) fr) (storage w)
  | ClickAcak t0 now r =>
      let '(st, fr) := handleAcak t0 now r (page w) in
      mkWorld st (keep (scheduled w) fr) (storage w)
  | Frame now r =>
      match scheduled w with
      | Some a =>
          let '(st, fr) := animate a now r (page w) in
          mkWorld st fr (storage w)
      | None => w
      end
  | ClickReset => mkWorld (handleReset (page w)) (scheduled w) (storage w)
  | Edit i newInitial =>
      match onSave i newInitial (storage w) (page w) with
      | Returned (s, st) => mkWorld st (scheduled w) s
      | Thrown => w
      end
  end.

(** [run w es]: the events [es] happen one after another. *)
Definition run (w : World) (es : list event) : World := foldl step w es.

Definition initialWorld (s : Storage) : World := mkWorld initialState None s.

(** ** The cumulative walk *)

(** The running sum once the walk has added the category at position [k]:
    the counts at positions [0 .. k]. *)
Definition cumulative (blocks : list Block.t) (k : nat) : Z :=
  totalRemaining (take (S k) blocks).

(** Position [k] is the first whose cumulative sum exceeds [r]. *)
Definition first_exceeding (blocks : list Block.t) (r : Z) (k : nat) : Prop :=
  (k < length blocks)%nat /\
  r < cumulative blocks k /\
  forall j, (j < k)%nat -> cumulative blocks j <= r.

(** No position has a cumulative sum that exceeds [r]. *)
Definition none_exceeding (blocks : list Block.t) (r : Z) : Prop :=
  forall j, (j < length blocks)%nat -> cumulative blocks j <= r.

(** ** Predicates, sample data and the specification's wording *)

Definition samplePool : list Block.t :=
  [ Block.mk "red" "Merah" "/red.svg" 2 6;
    Block.mk "blue" "Biru" "/blue.svg" 0 6;
    Block.mk "green" "Hijau" "/green.svg" 3 6 ].

(** A sequence of draws: each runs [pickAndDecrement] on the list left by the
    one before, with the next random integer. *)
Fixpoint draws (blocks : list Block.t) (rs : list Z) : list Block.t :=
  match rs with
  | [] => blocks
  | r :: rs' => draws (pickAndDecrement blocks r blocks).2 rs'
  end.

(** Each random integer lies below the total at the time of its draw. *)
Fixpoint valid_draws (blocks : list Block.t) (rs : list Z) : Prop :=
  match rs with
  | [] => True
  | r :: rs' =>
      0 <= r < totalRemaining blocks /\
      valid_draws (pickAndDecrement blocks r blocks).2 rs'
  end.

(** The sum of the starting counts. *)
Definition totalStarting (blocks : list Block.t) : Z :=
  foldl (fun s b => s + Block.initial b) 0 blocks.

(** The pool [{A: 0, B: 1}] of the fast-path example. *)
Definition poolAB : list Block.t :=
  [ Block.mk "A" "A" "/a.svg" 0 1; Block.mk "B" "B" "/b.svg" 1 1 ].

(** A display refresh that fires while [progress < 1] for an animation
    started at [t0] with duration [d]. *)
Definition early (t0 : Z) (d : positive) (e : event) : Prop :=
  match e with
  | Frame now _ => now - t0 < Z.pos d
  | _ => False
  end.

Definition isFrame (e : event) : Prop :=
  match e with
  | Frame _ _ => True
  | _ => False
  end.

(** The closure of the general path of [animateSelection] before its first
    call of [animate()]. *)
Definition startAnimation (d : positive) (t0 : Z) (st : State) : Animation :=
  mkAnimation t0 d (blocks st) (availableBlocks (blocks st)) 0.

(** The id under which an element of the parsed array can be found. *)
Definition element_id (e : element) : option string :=
  match e with
  | ENull => None
  | EValue eid _ => eid
  end.




(** The built-in list [{red: 6, blue: 6}] of the reconciliation example. *)
Definition builtinRB : list Config.t :=
  [ Config.mk "red" "Merah" "/red.svg" 6;
    Config.mk "blue" "Biru" "/blue.svg" 6 ].

(** The persisted record
    [[{id: "red", initial: 3}, {id: "stale", initial: 99}]]. *)
Definition persistedExample : Storage :=
  mkStorage true true
    (JsonArray [EValue (Some "red") (Int 3); EValue (Some "stale") (Int 99)]).

(** One entry of the merge: the built-in entry, with its [initial] replaced
    when an element was found. *)
Definition merged_entry (d : Config.t) (found : option number) : Config.t :=
  match found with
  | Some n => Config.with_initial d (or_default n (Config.initial d))
  | None => d
  end.

(** [0 <= remainingCount <= startingCount] for one block. *)
Definition count_in_bounds (b : Block.t) : Prop :=
  0 <= Block.count b <= Block.initial b.

Definition number_nonneg (n : number) : Prop :=
  match n with
  | NaN => True
  | Int z => 0 <= z
  end.

(** The persisted overrides that are numbers are not negative. *)
Definition element_nonneg (e : element) : Prop :=
  match e with
  | ENull => True
  | EValue _ n => number_nonneg n
  end.

Definition storage_nonneg (s : Storage) : Prop :=
  match content s with
  | JsonArray parsed => Forall element_nonneg parsed
  | _ => True
  end.

(** The value entered in an edit is not negative. *)
Definition event_nonneg (e : event) : Prop :=
  match e with
  | Edit _ newInitial => 0 <= newInitial
  | _ => True
  end.

Definition config_nonneg (cfg : list Config.t) : Prop :=
  Forall (fun c => 0 <= Config.initial c) cfg.

Definition page_inv (st : State) : Prop :=
  Forall count_in_bounds (blocks st) /\ config_nonneg (savedConfig st).

Definition world_inv (w : World) : Prop :=
  page_inv (page w) /\ storage_nonneg (storage w).

(** A handler that draws at most once: the saved configuration is kept, and
    the list is either kept or run through the updater of one draw. *)
Definition same_or_drawn (st st' : State) : Prop :=
  savedConfig st' = savedConfig st /\
  (blocks st' = blocks st \/
   exists bs r, blocks st' = (pickAndDecrement bs r (blocks st)).2).

(** ** The shape of the page, the cleanup and the rendered controls *)

(** The cleanup of the first effect of [Home]:
    [cancelAnimationFrame(animationFrameRef.current)] withdraws the frame
    that is scheduled; [animationTimeoutRef] is never assigned, so
    [clearTimeout] has nothing to clear. *)
Definition cleanup (w : World) : World := mkWorld (page w) None (storage w).

(** A configuration entry [c] is the built-in entry [d] up to its starting
    count. *)
Definition builtin_entry (d c : Config.t) : Prop :=
  Config.id c = Config.id d /\
  Config.name c = Config.name d /\
  Config.src c = Config.src d.

(** A block [b] shows the configuration entry [c]: same id, name, image and
    starting count. *)
Definition shows (c : Config.t) (b : Block.t) : Prop :=
  Block.id b = Config.id c /\
  Block.name b = Config.name c /\
  Block.src b = Config.src c /\
  Block.initial b = Config.initial c.

(** The saved configuration lists the built-in categories in built-in order,
    and the blocks show the saved configuration entry by entry. *)
Definition shape_inv (st : State) : Prop :=
  Forall2 builtin_entry DEFAULT_INITIAL (savedConfig st) /\
  Forall2 shows (savedConfig st) (blocks st).

(** [isAnimating] is set exactly while a frame is scheduled. *)
Definition animating_inv (w : World) : Prop :=
  isAnimating (page w) = true <-> is_Some (scheduled w).

(** A click on one of the two draw buttons. *)
Definition isDrawClick (e : event) : Prop :=
  match e with
  | ClickMulai _ _ _ | ClickAcak _ _ _ => True
  | _ => False
  end.

(** ** Counts that are not whole numbers

    The editor's [Number(value) || 0] and the loader's
    [Number(found.initial) || d.initial] let a count such as [1.5] through.
    This module is the draw engine once more, over rational counts.  Its
    arithmetic is exact; binary64 agrees with it on the halves of small
    integers, which is all the module is used for. *)
Module Fractional.

Record Block := mkBlock {
  id : string;
  name : string;
  src : string;
  count : Q;
  initial : Q;
}.

(** [{ ...b, count: c }] *)
Definition with_count (b : Block) (c : Q) : Block :=
  mkBlock (id b) (name b) (src b) c (initial b).

(** [x < y] as a test. *)
Definition Qltb (x y : Q) : bool :=
  match (x ?= y)%Q with
  | Lt => true
  | _ => false
  end.

(** [blocks.reduce((s, b) => s + b.count, 0)] *)
Definition totalRemaining (blocks : list Block) : Q :=
  foldl (fun s b => s + count b)%Q 0%Q blocks.

(** The sum of the starting counts. *)
Definition totalStarting (blocks : list Block) : Q :=
  foldl (fun s b => s + initial b)%Q 0%Q blocks.

(** The [for] loop of [pickAndDecrement]. *)
Fixpoint walk (bs : list Block) (r : Z) (cum : Q) (i : Z) : Z :=
  match bs with
  | [] => -1
  | b :: rest =>
      let cum' := (cum + count b)%Q in
      if Qltb (inject_Z r) cum' then i else walk rest r cum' (i + 1)
  end.

Definition pickedIndex (blocks : list Block) (r : Z) : Z :=
  let w := walk blocks r 0%Q 0 in
  if w =? -1 then Z.of_nat (length blocks) - 1 else w.

(** [prev.map((b, i) => i === pickedIndex
        ? { ...b, count: Math.max(0, b.count - 1) } : b)] *)
Definition decrementAt (pickedIndex : Z) (prev : list Block) : list Block :=
  imap (fun i b =>
          if Z.of_nat i =? pickedIndex
          then with_count b (Qmax 0 (count b - 1))
          else b) prev.

(** [pickAndDecrement()], with [r] the value of
    [Math.floor(Math.random() * total)]. *)
Definition pickAndDecrement (blocks : list Block) (r : Z)
    (prev : list Block) : option Block * list Block :=
  let total := totalRemaining blocks in
  if Qle_bool total 0 then (None, prev)
  else
    let i := pickedIndex blocks r in
    (js_index blocks i, decrementAt i prev).

(** A sequence of draws, each on the list left by the one before. *)
Fixpoint draws (blocks : list Block) (rs : list Z) : list Block :=
  match rs with
  | [] => blocks
  | r :: rs' => draws (pickAndDecrement blocks r blocks).2 rs'
  end.

(** Each random integer lies below the total at the time of its draw. *)
Fixpoint valid_draws (blocks : list Block) (rs : list Z) : Prop :=
  match rs with
  | [] => True
  | r :: rs' =>
      (0 <= r /\ (inject_Z r < totalRemaining blocks)%Q) /\
      valid_draws (pickAndDecrement blocks r blocks).2 rs'
  end.

(** Two categories that start at one and a half. *)
Definition halves : list Block :=
  [ mkBlock "red" "Merah" "/red.svg" (3 # 2) (3 # 2);
    mkBlock "blue" "Biru" "/blue.svg" (3 # 2) (3 # 2) ].

End Fractional.

(** ** Lemmas on the cumulative walk *)

Lemma foldl_count_acc (l : list Block.t) (a : Z) :
  foldl (fun s b => s + Block.count b) a l = a + totalRemaining l.
Proof.
  unfold totalRemaining. revert a.
  induction l as [|b l IH]; intros a; simpl; [lia|].
  rewrite (IH (a + Block.count b)), (IH (0 + Block.count b)). lia.
Qed.

Lemma totalRemaining_nil : totalRemaining [] = 0.
Proof. reflexivity. Qed.

Lemma totalRemaining_cons (b : Block.t) (l : list Block.t) :
  totalRemaining (b :: l) = Block.count b + totalRemaining l.
Proof.
  unfold totalRemaining at 1. simpl. rewrite foldl_count_acc. lia.
Qed.

Lemma totalRemaining_app (l1 l2 : list Block.t) :
  totalRemaining (l1 ++ l2) = totalRemaining l1 + totalRemaining l2.
Proof.
  induction l1 as [|b l1 IH]; simpl.
  - rewrite totalRemaining_nil. lia.
  - rewrite !totalRemaining_cons, IH. lia.
Qed.

Lemma cumulative_0 (b : Block.t) (l : list Block.t) :
  cumulative (b :: l) 0 = Block.count b.
Proof.
  unfold cumulative. simpl. rewrite take_0, totalRemaining_cons,
    totalRemaining_nil. lia.
Qed.

Lemma cumulative_S (b : Block.t) (l : list Block.t) (k : nat) :
  cumulative (b :: l) (S k) = Block.count b + cumulative l k.
Proof. unfold cumulative. simpl. by rewrite totalRemaining_cons. Qed.

Lemma cumulative_last (l : list Block.t) (k : nat) :
  (length l <= S k)%nat -> cumulative l k = totalRemaining l.
Proof. intros H. unfold cumulative. by rewrite take_ge by lia. Qed.

(** What the loop computes, for a loop entered at index [i] with running sum
    [cum]: either it runs off the end, and then no shifted cumulative sum
    exceeds [r], or it breaks at the first position that does. *)
Lemma walk_cases (bs : list Block.t) (r cum i : Z) :
  (walk bs r cum i = -1 /\
   forall j, (j < length bs)%nat -> cum + cumulative bs j <= r)
  \/
  (exists k : nat,
      walk bs r cum i = i + Z.of_nat k /\
      (k < length bs)%nat /\
      r < cum + cumulative bs k /\
      forall j, (j < k)%nat -> cum + cumulative bs j <= r).
Proof.
  revert cum i. induction bs as [|b bs IH]; intros cum i; simpl.
  - left. split; [done|]. intros j Hj. simpl in Hj. lia.
  - destruct (Z.ltb_spec r (cum + Block.count b)) as [Hlt|Hge].
    + right. exists 0%nat. rewrite cumulative_0.
      repeat split; [lia|simpl; lia|lia|]. intros j Hj. lia.
    + destruct (IH (cum + Block.count b) (i + 1))
        as [[Hw Hall]|(k & Hw & Hk & Hr & Hbefore)].
      * left. split; [done|]. intros [|j] Hj.
        -- rewrite cumulative_0. lia.
        -- rewrite cumulative_S. specialize (Hall j). simpl in Hj.
           specialize (Hall ltac:(lia)). lia.
      * right. exists (S k). rewrite cumulative_S.
        repeat split; [lia|simpl; lia|lia|]. intros [|j] Hj.
        -- rewrite cumulative_0. lia.
        -- rewrite cumulative_S. specialize (Hbefore j ltac:(lia)). lia.
Qed.

(** From index [0] the two cases exclude each other: a break never returns
    [-1]. *)
Lemma walk_first_exceeding (blocks : list Block.t) (r : Z) (k : nat) :
  first_exceeding blocks r k -> walk blocks r 0 0 = Z.of_nat k.
Proof.
  intros (Hk & Hr & Hbefore).
  destruct (walk_cases blocks r 0 0)
    as [[_ Hall]|(k' & Hw & Hk' & Hr' & Hbefore')].
  - specialize (Hall k Hk). lia.
  - rewrite Hw. destruct (Nat.lt_trichotomy k k') as [Hlt|[->|Hgt]].
    + specialize (Hbefore' k Hlt). lia.
    + lia.
    + specialize (Hbefore k' Hgt). lia.
Qed.

Lemma walk_none_exceeding (blocks : list Block.t) (r : Z) :
  none_exceeding blocks r -> walk blocks r 0 0 = -1.
Proof.
  intros Hnone.
  destruct (walk_cases blocks r 0 0) as [[Hw _]|(k & _ & Hk & Hr & _)].
  - done.
  - specialize (Hnone k Hk). lia.
Qed.

Lemma first_or_none (blocks : list Block.t) (r : Z) :
  none_exceeding blocks r \/ exists k, first_exceeding blocks r k.
Proof.
  destruct (walk_cases blocks r 0 0)
    as [[_ Hall]|(k & _ & Hk & Hr & Hbefore)].
  - left. intros j Hj. specialize (Hall j Hj). lia.
  - right. exists k. repeat split; [done|lia|].
    intros j Hj. specialize (Hbefore j Hj). lia.
Qed.

(** With [r] below the total the walk cannot run off the end: the last
    cumulative sum is the total. *)
Lemma in_range_first_exceeding (blocks : list Block.t) (r : Z) :
  r < totalRemaining blocks -> 0 < totalRemaining blocks ->
  exists k, first_exceeding blocks r k.
Proof.
  intros Hr Hpos. destruct (first_or_none blocks r) as [Hnone|Hex]; [|done].
  exfalso. destruct blocks as [|b bs] using rev_ind.
  - rewrite totalRemaining_nil in Hpos. lia.
  - specialize (Hnone (length bs)). rewrite length_app in Hnone. simpl in Hnone.
    specialize (Hnone ltac:(lia)).
    rewrite cumulative_last in Hnone by (rewrite length_app; simpl; lia). lia.
Qed.

(** The category at the first exceeding position has a positive count when
    [r] is not negative. *)
Lemma first_exceeding_positive (blocks : list Block.t) (r : Z) (k : nat)
    (b : Block.t) :
  0 <= r -> first_exceeding blocks r k -> blocks !! k = Some b ->
  0 < Block.count b.
Proof.
  intros Hr0 (Hk & Hr & Hbefore) Hb.
  assert (Hstep : cumulative blocks k =
                  totalRemaining (take k blocks) + Block.count b).
  { unfold cumulative. rewrite (take_S_r _ _ _ Hb), totalRemaining_app,
      totalRemaining_cons, totalRemaining_nil. lia. }
  destruct k as [|k].
  - rewrite take_0, totalRemaining_nil in Hstep. lia.
  - specialize (Hbefore k ltac:(lia)). unfold cumulative in Hbefore. lia.
Qed.

Lemma totalRemaining_nonneg (l : list Block.t) :
  Forall (fun b => 0 <= Block.count b) l -> 0 <= totalRemaining l.
Proof.
  induction 1 as [|b l Hb _ IH]; [done|].
  rewrite totalRemaining_cons. lia.
Qed.

Lemma totalRemaining_take_mono (l : list Block.t) (j k : nat) :
  Forall (fun b => 0 <= Block.count b) l -> (j <= k)%nat ->
  totalRemaining (take j l) <= totalRemaining (take k l).
Proof.
  intros Hl. revert j k. induction Hl as [|b l Hb Hl IH]; intros j k Hjk.
  - by rewrite !take_nil.
  - destruct j as [|j]; destruct k as [|k]; simpl; try lia.
    + rewrite totalRemaining_cons.
      pose proof (totalRemaining_nonneg (take k l) (Forall_take _ k _ Hl)).
      rewrite totalRemaining_nil. lia.
    + rewrite !totalRemaining_cons. specialize (IH j k ltac:(lia)). lia.
Qed.

(** With counts that are not negative the walk cuts [[0, total)] into
    consecutive intervals, one per category and as long as its count: the
    category at position [k] is picked exactly for the [r] in its
    interval. *)
Lemma first_exceeding_interval (blocks : list Block.t) (r : Z) (k : nat)
    (b : Block.t) :
  Forall (fun x => 0 <= Block.count x) blocks ->
  blocks !! k = Some b -> 0 <= r ->
  first_exceeding blocks r k <->
  totalRemaining (take k blocks) <= r <
    totalRemaining (take k blocks) + Block.count b.
Proof.
  intros Hnn Hb Hr0.
  assert (Hcum : cumulative blocks k =
                 totalRemaining (take k blocks) + Block.count b).
  { unfold cumulative. rewrite (take_S_r _ _ _ Hb), totalRemaining_app,
      totalRemaining_cons, totalRemaining_nil. lia. }
  split.
  - intros (_ & Hlt & Hbefore). split; [|lia].
    destruct k as [|k]; [by rewrite take_0, totalRemaining_nil|].
    apply (Hbefore k). lia.
  - intros [Hlo Hhi]. split; [by eapply lookup_lt_Some|]. split; [lia|].
    intros j Hj. unfold cumulative.
    pose proof (totalRemaining_take_mono blocks (S j) k Hnn ltac:(lia)). lia.
Qed.

(** ** The decrement *)

Lemma length_decrementAt (i : Z) (prev : list Block.t) :
  length (decrementAt i prev) = length prev.
Proof. unfold decrementAt. by rewrite length_imap. Qed.

Lemma lookup_decrementAt_eq (k : nat) (prev : list Block.t) (b : Block.t) :
  prev !! k = Some b ->
  decrementAt (Z.of_nat k) prev !! k =
    Some (Block.with_count b (Z.max 0 (Block.count b - 1))).
Proof.
  intros Hb. unfold decrementAt. rewrite list_lookup_imap, Hb. simpl.
  by rewrite Z.eqb_refl.
Qed.

Lemma lookup_decrementAt_ne (i : Z) (j : nat) (prev : list Block.t) :
  Z.of_nat j <> i -> decrementAt i prev !! j = prev !! j.
Proof.
  intros Hne. unfold decrementAt. rewrite list_lookup_imap.
  destruct (prev !! j) as [b|]; simpl; [|done].
  destruct (Z.eqb_spec (Z.of_nat j) i); [done|done].
Qed.

(** Decrementing a positive count at a position of the list is an in-place
    update of that one element. *)
Lemma decrementAt_insert (k : nat) (prev : list Block.t) (b : Block.t) :
  prev !! k = Some b -> 0 < Block.count b ->
  decrementAt (Z.of_nat k) prev =
    <[k := Block.with_count b (Block.count b - 1)]> prev.
Proof.
  intros Hb Hpos. apply list_eq. intros j.
  destruct (decide (j = k)) as [->|Hne].
  - rewrite (lookup_decrementAt_eq _ _ _ Hb).
    rewrite list_lookup_insert_eq by (by eapply lookup_lt_Some).
    by rewrite Z.max_r by lia.
  - rewrite lookup_decrementAt_ne by lia.
    by rewrite list_lookup_insert_ne.
Qed.

Lemma totalRemaining_insert (k : nat) (l : list Block.t) (b b' : Block.t) :
  l !! k = Some b ->
  totalRemaining (<[k := b']> l) =
    totalRemaining l - Block.count b + Block.count b'.
Proof.
  revert k. induction l as [|x l IH]; intros k Hb; [done|].
  destruct k as [|k]; simpl in *.
  - inversion Hb; subst. rewrite !totalRemaining_cons. lia.
  - rewrite !totalRemaining_cons, (IH k Hb). lia.
Qed.

Lemma js_index_of_nat {A : Type} (l : list A) (k : nat) :
  js_index l (Z.of_nat k) = l !! k.
Proof.
  unfold js_index. destruct (Z.ltb_spec (Z.of_nat k) 0); [lia|].
  by rewrite Nat2Z.id.
Qed.

Lemma pickedIndex_first_exceeding (blocks : list Block.t) (r : Z) (k : nat) :
  first_exceeding blocks r k -> pickedIndex blocks r = Z.of_nat k.
Proof.
  intros Hk. unfold pickedIndex. rewrite (walk_first_exceeding _ _ _ Hk).
  destruct (Z.eqb_spec (Z.of_nat k) (-1)); [lia|done].
Qed.

Lemma pickedIndex_none_exceeding (blocks : list Block.t) (r : Z) :
  none_exceeding blocks r ->
  pickedIndex blocks r = Z.of_nat (length blocks) - 1.
Proof.
  intros Hnone. unfold pickedIndex. by rewrite (walk_none_exceeding _ _ Hnone).
Qed.

Lemma totalRemaining_pos_nonempty (blocks : list Block.t) :
  0 < totalRemaining blocks -> (0 < length blocks)%nat.
Proof.
  destruct blocks; [rewrite totalRemaining_nil; lia|simpl; lia].
Qed.

Lemma pickAndDecrement_nonempty (blocks prev : list Block.t) (r : Z) :
  0 < totalRemaining blocks ->
  pickAndDecrement blocks r prev =
    (js_index blocks (pickedIndex blocks r),
     decrementAt (pickedIndex blocks r) prev).
Proof.
  intros Hpos. unfold pickAndDecrement.
  by destruct (Z.leb_spec (totalRemaining blocks) 0); [lia|].
Qed.

Lemma pickAndDecrement_first_exceeding
    (blocks prev : list Block.t) (r : Z) (k : nat) :
  0 < totalRemaining blocks -> first_exceeding blocks r k ->
  pickAndDecrement blocks r prev =
    (blocks !! k, decrementAt (Z.of_nat k) prev).
Proof.
  intros Hpos Hk. rewrite (pickAndDecrement_nonempty _ _ _ Hpos).
  by rewrite (pickedIndex_first_exceeding _ _ _ Hk), js_index_of_nat.
Qed.

(** One draw with [r] in range, run against the list it was computed from:
    the picked position holds a positive count, and the new list is an
    in-place update of that position. *)
Lemma pickAndDecrement_in_range (blocks : list Block.t) (r : Z) :
  0 <= r < totalRemaining blocks ->
  exists (k : nat) (picked : Block.t),
    first_exceeding blocks r k /\
    blocks !! k = Some picked /\
    0 < Block.count picked /\
    pickAndDecrement blocks r blocks =
      (Some picked,
       <[k := Block.with_count picked (Block.count picked - 1)]> blocks).
Proof.
  intros [Hr0 Hr].
  destruct (in_range_first_exceeding blocks r) as [k Hk]; [lia|lia|].
  destruct (lookup_lt_is_Some_2 blocks k) as [picked Hp]; [apply Hk|].
  pose proof (first_exceeding_positive _ _ _ _ Hr0 Hk Hp) as Hpos.
  exists k, picked. repeat split; try done; try apply Hk.
  unfold pickAndDecrement.
  destruct (Z.leb_spec (totalRemaining blocks) 0); [lia|].
  rewrite (pickedIndex_first_exceeding _ _ _ Hk), js_index_of_nat, Hp.
  by rewrite (decrementAt_insert _ _ _ Hp Hpos).
Qed.

Lemma pickAndDecrement_empty (blocks prev : list Block.t) (r : Z) :
  totalRemaining blocks <= 0 -> pickAndDecrement blocks r prev = (None, prev).
Proof.
  intros H. unfold pickAndDecrement.
  by destruct (Z.leb_spec (totalRemaining blocks) 0); [|lia].
Qed.

Lemma totalRemaining_after_draw (blocks : list Block.t) (r : Z) :
  0 <= r < totalRemaining blocks ->
  totalRemaining (pickAndDecrement blocks r blocks).2 =
    totalRemaining blocks - 1.
Proof.
  intros Hr.
  destruct (pickAndDecrement_in_range blocks r Hr)
    as (k & picked & _ & Hp & _ & ->). simpl.
  rewrite (totalRemaining_insert _ _ _ _ Hp). simpl. lia.
Qed.

(** ** Properties of the draw engine *)

(** X16.  Given the integer [r] it has drawn, and with a positive total of
    exact counts, the draw walks the pool in order over the running sum of
    the counts and picks the category at the first position whose cumulative
    sum exceeds [r]; when no position qualifies it falls back to the last
    category in pool order.  For [r] in [[0, totalRemaining)] a first
    exceeding position exists.  In either case the queued updater is the
    decrement at the picked index. *)
Theorem pickAndDecrement_walk_or_fallback
    (blocks prev : list Block.t) (r : Z) :
  exactCounts blocks ->
  0 < totalRemaining blocks ->
  (forall k, first_exceeding blocks r k ->
     pickedIndex blocks r = Z.of_nat k /\
     is_Some (blocks !! k) /\
     pickAndDecrement blocks r prev =
       (blocks !! k, decrementAt (Z.of_nat k) prev)) /\
  (none_exceeding blocks r ->
     walk blocks r 0 0 = -1 /\
     is_Some (last blocks) /\
     pickAndDecrement blocks r prev =
       (last blocks, decrementAt (Z.of_nat (length blocks) - 1) prev)) /\
  (0 <= r < totalRemaining blocks -> exists k, first_exceeding blocks r k).
Proof.
  intros _ Hpos.
  pose proof (pickAndDecrement_nonempty blocks prev r Hpos) as Hgo.
  pose proof (totalRemaining_pos_nonempty _ Hpos) as Hlen.
  split; [|split].
  - intros k Hk. rewrite Hgo, (pickedIndex_first_exceeding _ _ _ Hk).
    rewrite js_index_of_nat. repeat split.
    apply lookup_lt_is_Some_2, Hk.
  - intros Hnone. rewrite Hgo, (pickedIndex_none_exceeding _ _ Hnone).
    split; [by apply walk_none_exceeding|].
    replace (Z.of_nat (length blocks) - 1)
      with (Z.of_nat (pred (length blocks))) by lia.
    rewrite js_index_of_nat, <- last_lookup. split; [|done].
    rewrite last_lookup. apply lookup_lt_is_Some_2. lia.
  - intros [_ Hr]. by apply in_range_first_exceeding.
Qed.

Lemma pickAndDecrement_walk_or_fallback_witness :
  exactCounts samplePool /\
  0 < totalRemaining samplePool /\
  pickAndDecrement samplePool 3 samplePool =
    (samplePool !! 2%nat, decrementAt 2 samplePool).
Proof.
  assert (Hexact : exactCounts samplePool) by (by vm_compute).
  split; [exact Hexact|]. split; [reflexivity|].
  destruct (pickAndDecrement_walk_or_fallback samplePool samplePool 3 Hexact)
    as (Hfirst & _); [reflexivity|].
  apply (Hfirst 2%nat).
  split; [simpl; lia|]. split; [reflexivity|].
  intros [|[|j]] Hj; [by vm_compute|by vm_compute|lia].
Defined.

(** An [r] at or past the total runs the walk off the end, and the fallback
    picks the last block. *)
Example pickAndDecrement_fallback :
  walk samplePool 5 0 0 = -1 /\
  (pickAndDecrement samplePool 5 samplePool).1 = last samplePool.
Proof. by split. Qed.

(** C10.  With a positive total and [r] in [[0, totalRemaining)] the walk
    breaks out of the loop at a position whose category has a positive
    count: [pickedIndex] is not [-1] after the loop, the fallback is not
    taken, and the returned category never has a count of zero. *)
Theorem walk_in_range_picks_positive
    (blocks prev : list Block.t) (r : Z) :
  0 < totalRemaining blocks ->
  0 <= r < totalRemaining blocks ->
  exists (k : nat) (b : Block.t),
    walk blocks r 0 0 = Z.of_nat k /\
    walk blocks r 0 0 <> -1 /\
    (k < length blocks)%nat /\
    blocks !! k = Some b /\
    0 < Block.count b /\
    (pickAndDecrement blocks r prev).1 = Some b.
Proof.
  intros Hpos [Hr0 Hr].
  destruct (in_range_first_exceeding blocks r Hr Hpos) as [k Hk].
  destruct (lookup_lt_is_Some_2 blocks k) as [b Hb]; [apply Hk|].
  exists k, b. rewrite (walk_first_exceeding _ _ _ Hk).
  repeat split; [lia|apply Hk|done| |].
  - by eapply first_exceeding_positive.
  - by rewrite (pickAndDecrement_first_exceeding _ _ _ _ Hpos Hk).
Qed.

Lemma walk_in_range_picks_positive_witness :
  exists (k : nat) (b : Block.t),
    walk samplePool 2 0 0 = Z.of_nat k /\
    walk samplePool 2 0 0 <> -1 /\
    (k < length samplePool)%nat /\
    samplePool !! k = Some b /\
    0 < Block.count b /\
    (pickAndDecrement samplePool 2 samplePool).1 = Some b.
Proof.
  apply (walk_in_range_picks_positive samplePool samplePool 2);
    [reflexivity|split; [lia|reflexivity]].
Defined.




(** ** Exhaustion and the single-category fast path *)

Lemma totalRemaining_draws (blocks : list Block.t) (rs : list Z) :
  valid_draws blocks rs ->
  totalRemaining (draws blocks rs) =
    totalRemaining blocks - Z.of_nat (length rs).
Proof.
  revert blocks. induction rs as [|r rs IH]; intros blocks Hv; simpl in *.
  - lia.
  - destruct Hv as [Hr Hv]. rewrite (IH _ Hv).
    rewrite (totalRemaining_after_draw _ _ Hr). lia.
Qed.

Lemma totalRemaining_fresh (blocks : list Block.t) :
  Forall (fun b => Block.count b = Block.initial b) blocks ->
  totalRemaining blocks = totalStarting blocks.
Proof.
  unfold totalRemaining, totalStarting. generalize 0.
  intros z H. revert z. induction H as [|b l Hb _ IH]; intros z; simpl.
  - done.
  - by rewrite Hb, IH.
Qed.

Lemma world_eta (w : World) :
  mkWorld (page w) (scheduled w) (storage w) = w.
Proof. by destruct w. Qed.

Lemma handleMulai_empty (t0 now r : Z) (st : State) :
  totalRemaining (blocks st) <= 0 -> handleMulai t0 now r st = (st, None).
Proof.
  intros H. unfold handleMulai.
  destruct (Z.leb_spec (totalRemaining (blocks st)) 0); [|lia].
  by rewrite orb_true_r.
Qed.

Lemma handleAcak_empty (t0 now r : Z) (st : State) :
  totalRemaining (blocks st) <= 0 -> handleAcak t0 now r st = (st, None).
Proof.
  intros H. unfold handleAcak.
  destruct (Z.leb_spec (totalRemaining (blocks st)) 0); [|lia].
  by rewrite orb_true_r.
Qed.

Lemma step_click_empty (w : World) (t0 now r : Z) :
  totalRemaining (blocks (page w)) <= 0 ->
  step w (ClickMulai t0 now r) = w /\ step w (ClickAcak t0 now r) = w.
Proof.
  intros H. unfold step.
  rewrite (handleMulai_empty t0 now r (page w) H).
  rewrite (handleAcak_empty t0 now r (page w) H).
  destruct w as [p [a|] s]; by split.
Qed.

(** C6, counterexample.  Two categories start at one and a half each, so
    the starting counts sum to three.  Three draws, each with [r] in range,
    leave the counts [0] and [1/2]: the total is not zero, and a fourth
    draw request returns a pick and changes the list. *)
Lemma fractional_counts_outlast_draws_counterexample :
  let rs := [0; 0; 0] in
  let left := Fractional.draws Fractional.halves rs in
  (Fractional.totalStarting Fractional.halves == 3)%Q /\
  Z.of_nat (length rs) = 3 /\
  Fractional.valid_draws Fractional.halves rs /\
  Forall2 Qeq (map Fractional.count left) [0%Q; (1 # 2)%Q] /\
  ~ (Fractional.totalRemaining left == 0)%Q /\
  option_map Fractional.id (Fractional.pickAndDecrement left 0 left).1 =
    Some "blue" /\
  Forall2 Qeq
    (map Fractional.count (Fractional.pickAndDecrement left 0 left).2)
    [0%Q; 0%Q].
Proof.
  intros rs left.
  split; [by vm_compute|]. split; [reflexivity|].
  split; [by vm_compute|].
  split; [repeat constructor; by vm_compute|].
  split; [by vm_compute|]. split; [by vm_compute|].
  repeat constructor; by vm_compute.
Qed.

(** C6, amended.  When the total is zero, [pickAndDecrement] returns no pick
    and leaves the list as it is, and both draw buttons leave the page
    state, the scheduled frame and the storage unchanged.  When the counts
    are whole numbers whose magnitudes sum to at most [2^53] and every draw
    is applied to the list it was computed from, draws that number the
    total of the pool bring the total to zero, after which every further
    draw request is such a no-op; in a pool whose counts equal the starting
    counts that number is the sum of the starting counts. *)
Theorem empty_pool_draw_is_noop :
  (forall (blocks prev : list Block.t) (r : Z),
     totalRemaining blocks = 0 ->
     pickAndDecrement blocks r prev = (None, prev)) /\
  (forall (w : World) (t0 now r : Z),
     totalRemaining (blocks (page w)) = 0 ->
     handleMulai t0 now r (page w) = (page w, None) /\
     handleAcak t0 now r (page w) = (page w, None) /\
     step w (ClickMulai t0 now r) = w /\
     step w (ClickAcak t0 now r) = w) /\
  (forall (blocks : list Block.t) (rs : list Z),
     exactCounts blocks ->
     valid_draws blocks rs ->
     Z.of_nat (length rs) = totalRemaining blocks ->
     totalRemaining (draws blocks rs) = 0 /\
     forall r, pickAndDecrement (draws blocks rs) r (draws blocks rs) =
                 (None, draws blocks rs)) /\
  (forall blocks : list Block.t,
     Forall (fun b => Block.count b = Block.initial b) blocks ->
     totalRemaining blocks = totalStarting blocks).
Proof.
  split; [|split; [|split; [|exact totalRemaining_fresh]]].
  - intros blocks prev r H. apply pickAndDecrement_empty. lia.
  - intros w t0 now r H.
    assert (Hm := handleMulai_empty t0 now r (page w) ltac:(lia)).
    assert (Ha := handleAcak_empty t0 now r (page w) ltac:(lia)).
    repeat split; [done|done| |]; simpl.
    + rewrite Hm. simpl. apply world_eta.
    + rewrite Ha. simpl. apply world_eta.
  - intros blocks rs _ Hv Hlen.
    assert (H0 : totalRemaining (draws blocks rs) = 0)
      by (rewrite totalRemaining_draws by done; lia).
    split; [done|]. intros r. apply pickAndDecrement_empty. lia.
Qed.

Lemma empty_pool_draw_is_noop_witness :
  totalRemaining (draws samplePool [4; 0; 2; 1; 0]) = 0 /\
  step (mkWorld (setBlocks initialState (draws samplePool [4; 0; 2; 1; 0]))
          None (mkStorage true true NoItem)) (ClickAcak 0 0 0) =
    mkWorld (setBlocks initialState (draws samplePool [4; 0; 2; 1; 0]))
      None (mkStorage true true NoItem).
Proof.
  destruct empty_pool_draw_is_noop as (_ & Hstep & Hdraws & _).
  split.
  - apply (Hdraws samplePool [4; 0; 2; 1; 0]); [by vm_compute| |reflexivity].
    simpl. repeat split; vm_compute; congruence.
  - apply (Hstep (mkWorld (setBlocks initialState
                             (draws samplePool [4; 0; 2; 1; 0]))
                    None (mkStorage true true NoItem)) 0 0 0).
    reflexivity.
Defined.

Lemma availableBlocks_single (blocks : list Block.t) (b x : Block.t) :
  availableBlocks blocks = [b] -> x ∈ blocks -> 0 < Block.count x -> x = b.
Proof.
  intros Havail Hin Hpos.
  assert (Hx : x ∈ availableBlocks blocks).
  { unfold availableBlocks. apply list_elem_of_filter. by split. }
  rewrite Havail in Hx. by apply list_elem_of_singleton in Hx.
Qed.

Lemma none_available_total (blocks : list Block.t) :
  Forall (fun x => 0 <= Block.count x) blocks ->
  availableBlocks blocks = [] -> totalRemaining blocks = 0.
Proof.
  unfold availableBlocks.
  induction 1 as [|x l Hx _ IH]; [done|].
  rewrite filter_cons, totalRemaining_cons.
  destruct (decide (0 < Block.count x)); [done|].
  intros Hnil. rewrite (IH Hnil). lia.
Qed.

Lemma single_available_total (blocks : list Block.t) (b : Block.t) :
  Forall (fun x => 0 <= Block.count x) blocks ->
  availableBlocks blocks = [b] ->
  totalRemaining blocks = Block.count b /\ 0 < Block.count b.
Proof.
  unfold availableBlocks.
  induction 1 as [|x l Hx Hl IH]; [done|].
  rewrite filter_cons, totalRemaining_cons.
  destruct (decide (0 < Block.count x)) as [Hpos|Hneg].
  - intros Heq. injection Heq as -> Hnil.
    rewrite (none_available_total l Hl Hnil). split; [lia|done].
  - intros Heq. destruct (IH Heq) as [-> ?]. split; [lia|done].
Qed.

(** C7, counterexample.  Edits of red to [-1], of blue to [1] and of every
    other category to [0] leave exactly one category with a positive count
    and a total of zero: a draw request then does nothing at all. *)
Lemma single_positive_zero_total_counterexample :
  let w :=
    run (initialWorld (mkStorage true true NoItem))
      [ Mount; Edit "red" (-1); Edit "blue" 1; Edit "green" 0;
        Edit "pink" 0; Edit "grey" 0; Edit "orange" 0; Edit "yellow" 0;
        Edit "purple" 0 ] in
  map Block.id (availableBlocks (blocks (page w))) = ["blue"] /\
  isAnimating (page w) = false /\
  totalRemaining (blocks (page w)) = 0 /\
  forall t0 now r,
    step w (ClickMulai t0 now r) = w /\ step w (ClickAcak t0 now r) = w.
Proof.
  intros w. split; [by vm_compute|]. split; [by vm_compute|].
  split; [by vm_compute|]. intros t0 now r.
  apply step_click_empty. by vm_compute.
Qed.

(** C7, amended.  When no animation is running, the total is positive, the
    counts are exact and exactly one category has a positive count, a draw
    request ([handleAcak] or [handleMulai]) with [r] in range schedules no
    animation frame and leaves [isAnimating] false: it draws at once, sets
    [selected] to that category and lowers its count by one, leaving the
    rest of the list as it is.  When no count is negative the total is the
    count of that category, so it is positive and such an [r] exists.  From
    [{A: 0, B: 1}] the draw selects [B] and leaves [{A: 0, B: 0}]. *)
Theorem single_category_fast_path :
  (forall (st : State) (t0 now r : Z) (b : Block.t),
     isAnimating st = false ->
     0 < totalRemaining (blocks st) ->
     exactCounts (blocks st) ->
     availableBlocks (blocks st) = [b] ->
     0 <= r < totalRemaining (blocks st) ->
     exists k : nat,
       blocks st !! k = Some b /\
       let st' :=
         setSelected
           (setBlocks st
              (<[k := Block.with_count b (Block.count b - 1)]> (blocks st)))
           (Some b) in
       isAnimating st' = false /\
       handleAcak t0 now r st = (st', None) /\
       handleMulai t0 now r st = (setHasStarted st' true, None)) /\
  (forall (blocks : list Block.t) (b : Block.t),
     Forall (fun x => 0 <= Block.count x) blocks ->
     availableBlocks blocks = [b] ->
     totalRemaining blocks = Block.count b /\ 0 < Block.count b) /\
  (forall t0 now : Z,
     let st := setBlocks initialState poolAB in
     let st' := (handleAcak t0 now 0 st).1 in
     (handleAcak t0 now 0 st).2 = None /\
     option_map Block.id (selected st') = Some "B" /\
     map (fun b => (Block.id b, Block.count b)) (blocks st') =
       [("A", 0); ("B", 0)] /\
     handleMulai t0 now 0 st = (setHasStarted st' true, None)).
Proof.
  split; [|split; [exact single_available_total|by intros t0 now]].
  intros st t0 now r b Hanim _ _ Havail Hr.
  destruct (pickAndDecrement_in_range (blocks st) r Hr)
    as (k & picked & _ & Hp & Hpos & Heq).
  assert (picked = b) as ->.
  { eapply availableBlocks_single; [done| |done].
    apply list_elem_of_lookup. by exists k. }
  exists k. split; [done|]. simpl. split; [done|].
  unfold handleAcak, handleMulai, animateSelection, getSingleRemainingBlock.
  rewrite Hanim, Havail, Heq. simpl.
  by destruct (Z.leb_spec (totalRemaining (blocks st)) 0); [lia|].
Qed.

Lemma single_category_fast_path_witness :
  exists k : nat,
    poolAB !! k = Some (Block.mk "B" "B" "/b.svg" 1 1) /\
    handleAcak 0 0 0 (setBlocks initialState poolAB) =
      (setSelected
         (setBlocks (setBlocks initialState poolAB)
            (<[k := Block.mk "B" "B" "/b.svg" 0 1]> poolAB))
         (Some (Block.mk "B" "B" "/b.svg" 1 1)), None).
Proof.
  destruct (proj1 single_category_fast_path (setBlocks initialState poolAB)
              0 0 0 (Block.mk "B" "B" "/b.svg" 1 1))
    as (k & Hk & _ & Hacak & _);
    [reflexivity|reflexivity|by vm_compute|reflexivity
    |split; [lia|reflexivity]|].
  exists k. split; [exact Hk|exact Hacak].
Defined.

(** ** The reveal cycle *)

Lemma progress_lt_1 (elapsed : Z) (d : positive) :
  (progressOf elapsed d < 1)%Q <-> elapsed < Z.pos d.
Proof.
  unfold progressOf.
  destruct (Q.min_spec 1 (elapsed # d)) as [[Hlt Heq]|[Hle Heq]];
    rewrite Heq.
  - unfold Qlt in *. simpl in *. lia.
  - unfold Qlt, Qle in *. simpl in *. lia.
Qed.


Lemma animate_early (a : Animation) (now r : Z) (st : State) :
  now - startTime a < Z.pos (duration a) ->
  exists sel,
    animate a now r st =
      (setSelected st sel,
       Some (mkAnimation (startTime a) (duration a) (captured a)
               (available a) (frameIndex a + 1))).
Proof.
  intros Hearly. unfold animate.
  destruct (Qlt_le_dec _ 1) as [Hlt|Hge].
  - by eexists.
  - apply (proj2 (progress_lt_1 _ _)) in Hearly. exfalso.
    by apply (Qlt_not_le _ _ Hearly).
Qed.

Lemma animate_final (a : Animation) (now r : Z) (st : State) :
  Z.pos (duration a) <= now - startTime a ->
  exists sel,
    animate a now r st =
      (setIsAnimating
         (let pick := pickAndDecrement (captured a) r (blocks st) in
          setSelected (setBlocks st pick.2)
            match pick.1 with Some p => Some p | None => sel end)
         false,
       None).
Proof.
  intros Hfinal. unfold animate.
  destruct (Qlt_le_dec _ 1) as [Hlt|Hge].
  - apply (proj1 (progress_lt_1 _ _)) in Hlt. lia.
  - eexists. simpl.
    destruct (pickAndDecrement (captured a) r (blocks st)) as [[p|] bs];
      reflexivity.
Qed.

Lemma run_app (w : World) (es1 es2 : list event) :
  run w (es1 ++ es2) = run (run w es1) es2.
Proof. unfold run. apply foldl_app. Qed.

(** Ticks before the final one change nothing but [selected] and the frame
    counter. *)
Lemma run_early (ticks : list event) (w : World) (a : Animation) :
  scheduled w = Some a ->
  Forall (early (startTime a) (duration a)) ticks ->
  let w' := run w ticks in
  blocks (page w') = blocks (page w) /\
  savedConfig (page w') = savedConfig (page w) /\
  hasStarted (page w') = hasStarted (page w) /\
  isAnimating (page w') = isAnimating (page w) /\
  storage w' = storage w /\
  scheduled w' =
    Some (mkAnimation (startTime a) (duration a) (captured a) (available a)
            (frameIndex a + Z.of_nat (length ticks))).
Proof.
  revert w a. induction ticks as [|e ticks IH]; intros w a Hs Hall; simpl.
  - repeat split. rewrite Hs, Z.add_0_r. by destruct a.
  - inversion Hall as [|? ? He Hrest]; subst.
    destruct e as [| | |now r| |]; simpl in He; try done.
    set (w1 := step w (Frame now r)).
    destruct (animate_early a now r (page w) He) as [sel Hanim].
    assert (Hw1 : w1 = mkWorld (setSelected (page w) sel)
                         (Some (mkAnimation (startTime a) (duration a)
                                  (captured a) (available a)
                                  (frameIndex a + 1))) (storage w)).
    { unfold w1. simpl. by rewrite Hs, Hanim. }
    specialize (IH w1 _ ltac:(by rewrite Hw1) Hrest). simpl in IH.
    destruct IH as (H1 & H2 & H3 & H4 & H5 & H6).
    rewrite H1, H2, H3, H4, H5, H6, Hw1. simpl.
    repeat split. do 2 f_equal. lia.
Qed.

Lemma run_frames_idle (more : list event) (w : World) :
  scheduled w = None -> Forall isFrame more -> run w more = w.
Proof.
  intros Hs Hall. induction Hall as [|e more He _ IH]; [done|].
  destruct e; simpl in He; try done. simpl. by rewrite Hs.
Qed.







(** ** Loading the persisted configuration *)

Lemma find_id_first (pre post : list element) (i : string) (n : number) :
  Forall (fun e => e <> ENull) pre ->
  Forall (fun e => element_id e <> Some i) pre ->
  find_id (pre ++ EValue (Some i) n :: post) i = Returned (Some n).
Proof.
  intros Hnull Hpre. induction pre as [|e pre IH]; simpl.
  - by rewrite decide_True.
  - inversion Hnull; inversion Hpre; subst.
    destruct e as [|eid m]; [done|]. simpl in *.
    rewrite decide_False by done. by apply IH.
Qed.


Lemma find_id_returns (parsed : list element) (i : string) :
  Forall (fun e => e <> ENull) parsed ->
  exists found, find_id parsed i = Returned found.
Proof.
  intros Hnull. induction parsed as [|e parsed IH]; simpl; [by eexists|].
  inversion Hnull; subst. destruct e as [|eid m]; [done|].
  destruct (decide (eid = Some i)); [by eexists|by apply IH].
Qed.

Lemma merge_lookup (defaults : list Config.t) (parsed : list element) :
  Forall (fun e => e <> ENull) parsed ->
  exists cfg,
    merge defaults parsed = Returned cfg /\
    length cfg = length defaults /\
    forall k d, defaults !! k = Some d ->
      exists found, find_id parsed (Config.id d) = Returned found /\
                    cfg !! k = Some (merged_entry d found).
Proof.
  intros Hnull. induction defaults as [|d ds IH]; simpl.
  - exists []. repeat split. intros k d Hk. by rewrite lookup_nil in Hk.
  - destruct (find_id_returns parsed (Config.id d) Hnull) as [found Hf].
    destruct IH as (rest & Hrest & Hlen & Hlook).
    rewrite Hf, Hrest. simpl.
    exists (merged_entry d found :: rest).
    split; [done|]. split; [simpl; by rewrite Hlen|].
    intros [|k] d' Hk; simpl in *.
    + inversion Hk; subst. by exists found.
    + by apply Hlook.
Qed.

Lemma loadSavedConfigFrom_array (defaults : list Config.t) (s : Storage)
    (parsed : list element) :
  readable s = true -> content s = JsonArray parsed ->
  loadSavedConfigFrom defaults s =
    try_catch (merge defaults parsed) defaults.
Proof.
  intros Hr Hc. unfold loadSavedConfigFrom, getItem. by rewrite Hr, Hc.
Qed.




(** The same record against the page's own built-in list. *)
Example loadSavedConfig_example :
  map (fun c => (Config.id c, Config.initial c))
    (loadSavedConfig persistedExample) =
  [ ("red", 3); ("blue", 6); ("green", 6); ("pink", 6); ("grey", 6);
    ("orange", 6); ("yellow", 6); ("purple", 6) ].
Proof. reflexivity. Qed.

(** A persisted value of [0] is falsy in [Number(found.initial) || d.initial],
    so the default is kept. *)
Example load_zero_keeps_default :
  map Config.initial
    (loadSavedConfigFrom builtinRB
       (mkStorage true true (JsonArray [EValue (Some "red") (Int 0)]))) =
  [6; 6].
Proof. reflexivity. Qed.

(** A [null] element reached by [find] makes [p.id] throw, and the [catch]
    returns the built-in list as a whole. *)
Example load_null_element_gives_defaults :
  loadSavedConfigFrom builtinRB
    (mkStorage true true
       (JsonArray [EValue (Some "red") (Int 3); ENull])) = builtinRB.
Proof. reflexivity. Qed.

(** Absent, unreadable, unparsable or non-array data gives the built-in
    list. *)
Lemma load_falls_back (defaults : list Config.t) (s : Storage) :
  readable s = false \/ content s = NoItem \/ content s = BadJson \/
    content s = NotArray ->
  loadSavedConfigFrom defaults s = defaults.
Proof.
  unfold loadSavedConfigFrom, getItem.
  intros [->|[Hc|[Hc|Hc]]]; [done| | |];
    destruct (readable s); simpl; by rewrite ?Hc.
Qed.

(** ** Saving an edit *)

(** C3.  With storage that rejects the write, [saveConfig] throws instead of
    returning, so does the [onSave] callback that called it, and the edit
    reaches neither [savedConfig] nor [blocks]: the page is left as it was. *)
Theorem saveConfig_throws_when_write_fails :
  let s := mkStorage true false NoItem in
  saveConfig [("red", 3)] s initialState = Thrown /\
  onSave "red" 3 s initialState = Thrown /\
  step (initialWorld s) (Edit "red" 3) = initialWorld s.
Proof. by repeat split. Qed.

Lemma saveConfig_unwritable (config : list (string * Z)) (s : Storage)
    (st : State) :
  writable s = false -> saveConfig config s st = Thrown.
Proof. intros H. unfold saveConfig, setItem. by rewrite H. Qed.

(** The reading side, for comparison, never throws: it is a total function
    and falls back to the built-in list. *)
Lemma loadSavedConfig_unreadable (s : Storage) :
  readable s = false -> loadSavedConfig s = DEFAULT_INITIAL.
Proof. intros H. apply load_falls_back. by left. Qed.

(** C8.  In a session where blue has run out, the edit of blue to [9] on
    storage that rejects the write sets neither the starting count nor the
    count of blue: [onSave] throws in [saveConfig], before [setSavedConfig]
    and [setBlocks] run, so blue stays at count [0] with starting count [6]
    and the saved configuration is not touched. *)
Theorem edit_lost_when_write_fails :
  let st := setBlocks initialState samplePool in
  let s := mkStorage true false NoItem in
  let w := step (mkWorld st None s) (Edit "blue" 9) in
  onSave "blue" 9 s st = Thrown /\
  map (fun b => (Block.id b, Block.count b, Block.initial b))
    (blocks (page w)) = [("red", 2, 6); ("blue", 0, 6); ("green", 3, 6)] /\
  savedConfig (page w) = savedConfig st.
Proof. by repeat split. Qed.

(** X17.  When the write to storage goes through, an edit returns and sets
    both [initial] and [count] of every block with the edited id to the new
    value, whatever the count was, keeping the block's id, name and image;
    every other block is the same as before.  The saved configuration gets
    the new value for that id as well, and [selected], [hasStarted] and
    [isAnimating] are not touched. *)
Theorem edit_sets_initial_and_count
    (i : string) (newInitial : Z) (s : Storage) (st : State) :
  writable s = true ->
  exists (s' : Storage) (st' : State),
    onSave i newInitial s st = Returned (s', st') /\
    length (blocks st') = length (blocks st) /\
    (forall k b, blocks st !! k = Some b ->
       (Block.id b = i ->
        exists b', blocks st' !! k = Some b' /\
          Block.initial b' = newInitial /\
          Block.count b' = newInitial /\
          Block.id b' = Block.id b /\
          Block.name b' = Block.name b /\
          Block.src b' = Block.src b) /\
       (Block.id b <> i -> blocks st' !! k = Some b)) /\
    (forall k c, savedConfig st !! k = Some c ->
       (Config.id c = i ->
        savedConfig st' !! k = Some (Config.with_initial c newInitial)) /\
       (Config.id c <> i -> savedConfig st' !! k = Some c)) /\
    selected st' = selected st /\
    hasStarted st' = hasStarted st /\
    isAnimating st' = isAnimating st.
Proof.
  intros Hw. unfold onSave, saveConfig, setItem. rewrite Hw. simpl.
  eexists _, _. split; [reflexivity|]. simpl.
  split; [by rewrite length_map|]. split; [|split; [|done]].
  - intros k b Hb. rewrite list_lookup_fmap, Hb. simpl. split.
    + intros Hid. rewrite decide_True by done. by eexists.
    + intros Hid. by rewrite decide_False.
  - intros k c Hc. rewrite list_lookup_fmap, Hc. simpl. split.
    + intros Hid. by rewrite decide_True.
    + intros Hid. by rewrite decide_False.
Qed.

Lemma edit_sets_initial_and_count_witness :
  exists (s' : Storage) (st' : State),
    onSave "blue" 9 (mkStorage true true NoItem)
      (setBlocks initialState samplePool) = Returned (s', st') /\
    length (blocks st') = length samplePool.
Proof.
  destruct (edit_sets_initial_and_count "blue" 9 (mkStorage true true NoItem)
              (setBlocks initialState samplePool) eq_refl)
    as (s' & st' & Hsave & Hlen & _).
  exists s', st'. split; [exact Hsave|exact Hlen].
Defined.

(** The edit of the example refills blue, which had run out, to [9]. *)
Example edit_refills_mid_session :
  match onSave "blue" 9 (mkStorage true true NoItem)
          (setBlocks initialState samplePool) with
  | Returned (_, st') =>
      map (fun b => (Block.id b, Block.count b, Block.initial b)) (blocks st')
  | Thrown => []
  end = [("red", 2, 6); ("blue", 9, 9); ("green", 3, 6)].
Proof. reflexivity. Qed.

(** ** The count invariant *)

Lemma DEFAULT_INITIAL_nonneg : config_nonneg DEFAULT_INITIAL.
Proof.
  unfold config_nonneg, DEFAULT_INITIAL. repeat constructor; simpl; lia.
Qed.

Lemma toBlock_in_bounds (cfg : list Config.t) :
  config_nonneg cfg -> Forall count_in_bounds (map Config.toBlock cfg).
Proof.
  intros H. apply Forall_fmap. eapply Forall_impl; [exact H|].
  intros c Hc. unfold count_in_bounds. simpl in *. lia.
Qed.

Lemma find_id_nonneg (parsed : list element) (i : string) (n : number) :
  Forall element_nonneg parsed ->
  find_id parsed i = Returned (Some n) -> number_nonneg n.
Proof.
  intros Hall. induction Hall as [|e parsed He _ IH]; simpl; [done|].
  destruct e as [|eid m]; [done|].
  destruct (decide (eid = Some i)); [|done].
  intros Heq. by inversion Heq; subst.
Qed.

Lemma or_default_nonneg (n : number) (d : Z) :
  number_nonneg n -> 0 <= d -> 0 <= or_default n d.
Proof.
  destruct n as [|z]; simpl; [done|]. intros Hz Hd.
  by destruct (Z.eqb_spec z 0).
Qed.

Lemma merge_nonneg (defaults cfg : list Config.t) (parsed : list element) :
  config_nonneg defaults -> Forall element_nonneg parsed ->
  merge defaults parsed = Returned cfg -> config_nonneg cfg.
Proof.
  intros Hd Hp. revert cfg.
  induction Hd as [|d ds Hd0 _ IH]; intros cfg; simpl.
  - intros Heq. inversion Heq. constructor.
  - destruct (find_id parsed (Config.id d)) as [found|] eqn:Hf; [|done].
    simpl. destruct (merge ds parsed) as [rest|]; [|done]. simpl.
    intros Heq. inversion Heq; subst. constructor; [|by apply IH].
    destruct found as [n|]; simpl; [|done].
    apply or_default_nonneg; [|done]. by eapply find_id_nonneg.
Qed.

Lemma loadSavedConfigFrom_nonneg (defaults : list Config.t) (s : Storage) :
  config_nonneg defaults -> storage_nonneg s ->
  config_nonneg (loadSavedConfigFrom defaults s).
Proof.
  unfold storage_nonneg, loadSavedConfigFrom, getItem.
  intros Hd Hs. destruct (readable s); simpl; [|done].
  destruct (content s) as [| | |parsed]; simpl; try done.
  destruct (merge defaults parsed) as [cfg|] eqn:Hm; simpl; [|done].
  by eapply merge_nonneg.
Qed.

Lemma loadSavedConfig_nonneg (s : Storage) :
  storage_nonneg s -> config_nonneg (loadSavedConfig s).
Proof. apply loadSavedConfigFrom_nonneg, DEFAULT_INITIAL_nonneg. Qed.

Lemma decrementAt_in_bounds (i : Z) (prev : list Block.t) :
  Forall count_in_bounds prev -> Forall count_in_bounds (decrementAt i prev).
Proof.
  rewrite !Forall_lookup. intros H j b' Hb'. unfold decrementAt in Hb'.
  rewrite list_lookup_imap in Hb'.
  destruct (prev !! j) as [b|] eqn:Hb; simpl in Hb'; [|done].
  specialize (H j b Hb). unfold count_in_bounds in *.
  destruct (Z.of_nat j =? i); inversion Hb'; subst; simpl; lia.
Qed.

Lemma pickAndDecrement_in_bounds (bs prev : list Block.t) (r : Z) :
  Forall count_in_bounds prev ->
  Forall count_in_bounds (pickAndDecrement bs r prev).2.
Proof.
  intros H. unfold pickAndDecrement.
  destruct (totalRemaining bs <=? 0); simpl; [done|].
  by apply decrementAt_in_bounds.
Qed.

Lemma same_or_drawn_inv (st st' : State) :
  same_or_drawn st st' -> page_inv st -> page_inv st'.
Proof.
  intros [Hcfg Hblocks] [Hb Hc]. split; [|by rewrite Hcfg].
  destruct Hblocks as [->|(bs & r & ->)]; [done|].
  by apply pickAndDecrement_in_bounds.
Qed.

Lemma animate_same_or_drawn (a : Animation) (now r : Z) (st : State) :
  same_or_drawn st (animate a now r st).1.
Proof.
  destruct (Z_lt_le_dec (now - startTime a) (Z.pos (duration a)))
    as [Hearly|Hfinal].
  - destruct (animate_early a now r st Hearly) as [sel ->]. by split; [|left].
  - destruct (animate_final a now r st Hfinal) as [sel ->].
    split; [done|]. right. by exists (captured a), r.
Qed.

Lemma draw_now_same_or_drawn (r : Z) (st : State) :
  same_or_drawn st
    (let '(picked, blocks') := pickAndDecrement (blocks st) r (blocks st) in
     let st1 := setBlocks st blocks' in
     match picked with
     | Some p => setSelected st1 (Some p)
     | None => st1
     end).
Proof.
  destruct (pickAndDecrement (blocks st) r (blocks st)) as [picked bs'] eqn:E.
  split.
  - by destruct picked.
  - right. exists (blocks st), r. rewrite E. by destruct picked.
Qed.

Lemma animateSelection_same_or_drawn (d : positive) (t0 now r : Z)
    (st : State) :
  same_or_drawn st (animateSelection d t0 now r st).1.
Proof.
  unfold animateSelection.
  destruct (availableBlocks (blocks st)) as [|x [|y l]].
  - by split; [|left].
  - pose proof (draw_now_same_or_drawn r st) as H.
    by destruct (pickAndDecrement (blocks st) r (blocks st)) as [picked bs'].
  - apply (animate_same_or_drawn _ now r (setIsAnimating st true)).
Qed.

Lemma handleAcak_same_or_drawn (t0 now r : Z) (st : State) :
  same_or_drawn st (handleAcak t0 now r st).1.
Proof.
  unfold handleAcak.
  destruct (isAnimating st || (totalRemaining (blocks st) <=? 0)).
  - by split; [|left].
  - apply animateSelection_same_or_drawn.
Qed.

Lemma handleMulai_same_or_drawn (t0 now r : Z) (st : State) :
  same_or_drawn st (handleMulai t0 now r st).1.
Proof.
  unfold handleMulai.
  destruct (isAnimating st || (totalRemaining (blocks st) <=? 0)).
  - by split; [|left].
  - destruct (getSingleRemainingBlock (blocks st)).
    + pose proof (draw_now_same_or_drawn r st) as H.
      by destruct (pickAndDecrement (blocks st) r (blocks st))
        as [picked bs'].
    + pose proof (animateSelection_same_or_drawn 2000 t0 now r st) as H.
      by destruct (animateSelection 2000 t0 now r st) as [st1 fr].
Qed.

Lemma mount_inv (s : Storage) (st : State) :
  storage_nonneg s -> page_inv (mount s st).
Proof.
  intros Hs. pose proof (loadSavedConfig_nonneg s Hs) as Hcfg.
  unfold mount, page_inv. generalize dependent (loadSavedConfig s).
  intros cfg Hcfg. simpl. split; [by apply toBlock_in_bounds|done].
Qed.

Lemma handleReset_inv (st : State) : page_inv st -> page_inv (handleReset st).
Proof.
  intros [_ Hc]. unfold handleReset, page_inv. simpl. split; [|done].
  apply toBlock_in_bounds.
  destruct (savedConfig st); [apply DEFAULT_INITIAL_nonneg|done].
Qed.

Lemma onSave_returned (i : string) (newInitial : Z) (s s' : Storage)
    (st st' : State) :
  onSave i newInitial s st = Returned (s', st') ->
  let updatedSaved :=
    map (fun c => if decide (Config.id c = i)
                  then Config.with_initial c newInitial else c)
        (savedConfig st) in
  blocks st' =
    map (fun p => if decide (Block.id p = i)
                  then Block.refill p newInitial else p) (blocks st) /\
  savedConfig st' = updatedSaved /\
  content s' =
    JsonArray
      (map (fun c => EValue (Some (Config.id c)) (Int (Config.initial c)))
         updatedSaved).
Proof.
  unfold onSave, saveConfig, setItem.
  destruct (writable s); [|done]. intros Heq.
  injection Heq as <- <-. repeat split. simpl. by rewrite <- list_fmap_compose.
Qed.

Lemma onSave_inv (i : string) (newInitial : Z) (s s' : Storage)
    (st st' : State) :
  0 <= newInitial -> page_inv st ->
  onSave i newInitial s st = Returned (s', st') ->
  page_inv st' /\ storage_nonneg s'.
Proof.
  intros Hn [Hb Hc] Heq.
  destruct (onSave_returned _ _ _ _ _ _ Heq) as (Hblocks & Hsaved & Hcontent).
  assert (Hupd : config_nonneg
                   (map (fun c => if decide (Config.id c = i)
                                  then Config.with_initial c newInitial
                                  else c) (savedConfig st))).
  { apply Forall_fmap. eapply Forall_impl; [exact Hc|].
    intros c H0. simpl in *. by destruct (decide (Config.id c = i)). }
  split; [split|].
  - rewrite Hblocks. apply Forall_fmap. eapply Forall_impl; [exact Hb|].
    intros b H0. simpl. destruct (decide (Block.id b = i)); [|done].
    unfold count_in_bounds. simpl. lia.
  - by rewrite Hsaved.
  - unfold storage_nonneg. rewrite Hcontent. apply Forall_fmap.
    eapply Forall_impl; [exact Hupd|]. by intros c H0.
Qed.

Lemma step_inv (w : World) (e : event) :
  event_nonneg e -> world_inv w -> world_inv (step w e).
Proof.
  intros He [Hp Hs]. destruct e as [|t0 now r|t0 now r|now r| |i n]; simpl.
  - split; [by apply mount_inv|done].
  - pose proof (handleMulai_same_or_drawn t0 now r (page w)) as H.
    destruct (handleMulai t0 now r (page w)) as [st fr].
    split; [by eapply same_or_drawn_inv|done].
  - pose proof (handleAcak_same_or_drawn t0 now r (page w)) as H.
    destruct (handleAcak t0 now r (page w)) as [st fr].
    split; [by eapply same_or_drawn_inv|done].
  - destruct (scheduled w) as [a|]; [|done].
    pose proof (animate_same_or_drawn a now r (page w)) as H.
    destruct (animate a now r (page w)) as [st fr].
    split; [by eapply same_or_drawn_inv|done].
  - split; [by apply handleReset_inv|done].
  - destruct (onSave i n (storage w) (page w)) as [[s' st']|] eqn:E; [|done].
    simpl in He. by apply (onSave_inv i n (storage w) s' (page w) st').
Qed.

Lemma run_inv (es : list event) (w : World) :
  Forall event_nonneg es -> world_inv w -> world_inv (run w es).
Proof.
  intros Hes. revert w. induction Hes as [|e es He _ IH]; intros w Hw; [done|].
  simpl. apply IH. by apply step_inv.
Qed.

Lemma initialWorld_inv (s : Storage) :
  storage_nonneg s -> world_inv (initialWorld s).
Proof.
  intros Hs. split; [|done]. split; simpl.
  - apply (toBlock_in_bounds DEFAULT_INITIAL), DEFAULT_INITIAL_nonneg.
  - apply DEFAULT_INITIAL_nonneg.
Qed.

(** C9, counterexample.  Loading the persisted record
    [[{id: "red", initial: -3}]] gives the red block a count of [-3], below
    zero. *)
Lemma negative_override_breaks_bounds_counterexample :
  let s := mkStorage true true (JsonArray [EValue (Some "red") (Int (-3))]) in
  ~ Forall count_in_bounds (blocks (page (run (initialWorld s) [Mount]))).
Proof.
  intros s H. apply Forall_cons in H as [[H _] _]. simpl in H. lia.
Qed.

(** C9, amended.  As long as the persisted overrides that are numbers and
    the values entered in edits are not negative, every block satisfies
    [0 <= count <= initial] in every state the page reaches from its initial
    state through loads, draws, animation ticks, resets and edits: the mount
    effect, a reset and an edit write the same non-negative value to [count]
    and [initial], and a draw replaces a count by [max 0 (count - 1)]. *)
Theorem count_bounds_invariant (s : Storage) (es : list event) :
  storage_nonneg s ->
  Forall event_nonneg es ->
  Forall count_in_bounds (blocks (page (run (initialWorld s) es))).
Proof.
  intros Hs Hes. apply (run_inv es (initialWorld s) Hes).
  by apply initialWorld_inv.
Qed.

Lemma count_bounds_invariant_witness :
  Forall count_in_bounds
    (blocks (page (run (initialWorld persistedExample)
                     [ Mount; Edit "blue" 2; ClickMulai 0 0 5; Frame 900 0;
                       Frame 2000 3; ClickAcak 2100 2100 0; ClickReset ]))).
Proof.
  apply (count_bounds_invariant persistedExample).
  - repeat constructor; simpl; lia.
  - repeat constructor; simpl; lia.
Defined.

(** ** What [loadSavedConfig] returns for any storage *)

Lemma merge_shape (defaults cfg : list Config.t) (parsed : list element) :
  merge defaults parsed = Returned cfg -> Forall2 builtin_entry defaults cfg.
Proof.
  revert cfg. induction defaults as [|d ds IH]; intros cfg; simpl.
  - intros Heq. inversion Heq. constructor.
  - destruct (find_id parsed (Config.id d)) as [found|]; [|done]. simpl.
    destruct (merge ds parsed) as [rest|]; [|done]. simpl.
    intros Heq. inversion Heq; subst. constructor; [|by apply IH].
    by destruct found.
Qed.

Lemma merge_nonzero (defaults cfg : list Config.t) (parsed : list element) :
  Forall (fun d => Config.initial d <> 0) defaults ->
  merge defaults parsed = Returned cfg ->
  Forall (fun c => Config.initial c <> 0) cfg.
Proof.
  intros Hd. revert cfg. induction Hd as [|d ds Hd0 _ IH]; intros cfg; simpl.
  - intros Heq. inversion Heq. constructor.
  - destruct (find_id parsed (Config.id d)) as [found|]; [|done]. simpl.
    destruct (merge ds parsed) as [rest|]; [|done]. simpl.
    intros Heq. inversion Heq; subst. constructor; [|by apply IH].
    destruct found as [[|z]|]; simpl; try done.
    by destruct (Z.eqb_spec z 0).
Qed.

Lemma builtin_entry_refl (defaults : list Config.t) :
  Forall2 builtin_entry defaults defaults.
Proof. induction defaults; constructor; [done|done]. Qed.

Lemma loadSavedConfigFrom_shape (defaults : list Config.t) (s : Storage) :
  Forall2 builtin_entry defaults (loadSavedConfigFrom defaults s).
Proof.
  unfold loadSavedConfigFrom, getItem.
  destruct (readable s); simpl; [|apply builtin_entry_refl].
  destruct (content s) as [| | |parsed]; simpl; try apply builtin_entry_refl.
  destruct (merge defaults parsed) as [cfg|] eqn:Hm; simpl;
    [by eapply merge_shape|apply builtin_entry_refl].
Qed.

Lemma loadSavedConfigFrom_nonzero (defaults : list Config.t) (s : Storage) :
  Forall (fun d => Config.initial d <> 0) defaults ->
  Forall (fun c => Config.initial c <> 0) (loadSavedConfigFrom defaults s).
Proof.
  intros Hd. unfold loadSavedConfigFrom, getItem.
  destruct (readable s); simpl; [|done].
  destruct (content s) as [| | |parsed]; simpl; try done.
  destruct (merge defaults parsed) as [cfg|] eqn:Hm; simpl;
    [by eapply merge_nonzero|done].
Qed.

Lemma loadSavedConfig_builtin_shape_length (s : Storage) :
  length (loadSavedConfig s) = length DEFAULT_INITIAL.
Proof.
  unfold loadSavedConfig.
  by rewrite <- (Forall2_length _ _ _ (loadSavedConfigFrom_shape _ s)).
Qed.

(** X1.  Whatever the storage holds, readable or not, well formed or not,
    [loadSavedConfig] returns one entry per built-in category, in built-in
    order and with the built-in id, name and image, and no entry has a
    starting count of zero. *)
Theorem loadSavedConfig_builtin_shape (s : Storage) :
  Forall2 builtin_entry DEFAULT_INITIAL (loadSavedConfig s) /\
  length (loadSavedConfig s) = 8%nat /\
  map Config.id (loadSavedConfig s) = map Config.id DEFAULT_INITIAL /\
  Forall (fun c => Config.initial c <> 0) (loadSavedConfig s).
Proof.
  pose proof (loadSavedConfigFrom_shape DEFAULT_INITIAL s) as Hshape.
  split; [done|]. split; [|split].
  - unfold loadSavedConfig. by rewrite <- (Forall2_length _ _ _ Hshape).
  - unfold loadSavedConfig. revert Hshape.
    generalize (loadSavedConfigFrom DEFAULT_INITIAL s).
    generalize DEFAULT_INITIAL.
    induction 1 as [|d c ds cs [Hid _] _ IH]; simpl; [done|].
    by rewrite Hid, IH.
  - apply loadSavedConfigFrom_nonzero.
    unfold DEFAULT_INITIAL. by repeat constructor.
Qed.

Lemma find_id_null (parsed : list element) (i : string) :
  ENull ∈ parsed ->
  Forall (fun e => element_id e <> Some i) parsed ->
  find_id parsed i = Thrown.
Proof.
  intros Hin Habs. induction Habs as [|e parsed He _ IH]; simpl.
  - by apply elem_of_nil in Hin.
  - destruct e as [|eid m]; [done|]. simpl in He.
    rewrite decide_False by done. apply IH.
    apply elem_of_cons in Hin as [Heq|Hin]; [done|done].
Qed.

Lemma merge_null (defaults : list Config.t) (parsed : list element)
    (d : Config.t) :
  d ∈ defaults -> ENull ∈ parsed ->
  Forall (fun e => element_id e <> Some (Config.id d)) parsed ->
  merge defaults parsed = Thrown.
Proof.
  intros Hd Hnull Habs. induction defaults as [|x ds IH]; simpl.
  - by apply elem_of_nil in Hd.
  - apply elem_of_cons in Hd as [->|Hd].
    + by rewrite (find_id_null _ _ Hnull Habs).
    + destruct (find_id parsed (Config.id x)); [|done]. simpl.
      by rewrite (IH Hd).
Qed.

(** X2.  [loadSavedConfig] falls back to the whole built-in list when the
    storage cannot be read, holds nothing, holds text that does not parse or
    parses to something that is not an array.  It does the same for an array
    that contains [null] as soon as some built-in id is carried by no
    element: the lookup of that id reaches the [null], the property access
    throws, and the overrides of all other ids are lost with it. *)
Theorem loadSavedConfig_falls_back (s : Storage) :
  (readable s = false \/ content s = NoItem \/ content s = BadJson \/
     content s = NotArray ->
   loadSavedConfig s = DEFAULT_INITIAL) /\
  (forall (parsed : list element) (d : Config.t),
     readable s = true ->
     content s = JsonArray parsed ->
     ENull ∈ parsed ->
     d ∈ DEFAULT_INITIAL ->
     Forall (fun e => element_id e <> Some (Config.id d)) parsed ->
     loadSavedConfig s = DEFAULT_INITIAL).
Proof.
  split; [apply load_falls_back|].
  intros parsed d Hr Hc Hnull Hd Habs. unfold loadSavedConfig.
  rewrite (loadSavedConfigFrom_array _ _ _ Hr Hc).
  by rewrite (merge_null _ _ d Hd Hnull Habs).
Qed.

Lemma loadSavedConfig_falls_back_witness :
  loadSavedConfig (mkStorage true true BadJson) = DEFAULT_INITIAL /\
  loadSavedConfig
    (mkStorage true true
       (JsonArray [EValue (Some "red") (Int 3); ENull])) = DEFAULT_INITIAL.
Proof.
  split.
  - apply (proj1 (loadSavedConfig_falls_back (mkStorage true true BadJson))).
    right. right. by left.
  - apply (proj2 (loadSavedConfig_falls_back
                    (mkStorage true true
                       (JsonArray [EValue (Some "red") (Int 3); ENull])))
             [EValue (Some "red") (Int 3); ENull]
             (Config.mk "blue" "Biru" "/blue.svg" 6));
      [reflexivity|reflexivity| | |].
    + constructor 2. constructor 1.
    + constructor 2. constructor 1.
    + repeat constructor; simpl; discriminate.
Defined.

(** ** Invariants of the page over every sequence of events *)

Lemma shows_toBlock (cfg : list Config.t) :
  Forall2 shows cfg (map Config.toBlock cfg).
Proof. induction cfg; simpl; constructor; [done|done]. Qed.

Lemma shows_decrementAt (i : Z) (cfg : list Config.t) (prev : list Block.t) :
  Forall2 shows cfg prev -> Forall2 shows cfg (decrementAt i prev).
Proof.
  rewrite !Forall2_same_length_lookup, length_decrementAt.
  intros [Hlen H]. split; [done|]. intros j c b' Hc Hb'.
  unfold decrementAt in Hb'. rewrite list_lookup_imap in Hb'.
  destruct (prev !! j) as [b|] eqn:Hb; simpl in Hb'; [|done].
  specialize (H j c b Hc Hb).
  by destruct (Z.of_nat j =? i); inversion Hb'; subst.
Qed.

Lemma shows_pickAndDecrement (bs prev : list Block.t) (r : Z)
    (cfg : list Config.t) :
  Forall2 shows cfg prev -> Forall2 shows cfg (pickAndDecrement bs r prev).2.
Proof.
  intros H. unfold pickAndDecrement.
  destruct (totalRemaining bs <=? 0); simpl; [done|].
  by apply shows_decrementAt.
Qed.

Lemma same_or_drawn_shape (st st' : State) :
  same_or_drawn st st' -> shape_inv st -> shape_inv st'.
Proof.
  intros [Hcfg Hblocks] [Hb Hs]. split; rewrite Hcfg; [done|].
  destruct Hblocks as [->|(bs & r & ->)]; [done|].
  by apply shows_pickAndDecrement.
Qed.

Lemma mount_shape (s : Storage) (st : State) : shape_inv (mount s st).
Proof.
  pose proof (loadSavedConfigFrom_shape DEFAULT_INITIAL s) as H.
  unfold mount, shape_inv, loadSavedConfig.
  generalize dependent (loadSavedConfigFrom DEFAULT_INITIAL s).
  intros cfg H. simpl. split; [done|apply shows_toBlock].
Qed.

Lemma handleReset_blocks (st : State) :
  savedConfig st <> [] ->
  blocks (handleReset st) = map Config.toBlock (savedConfig st).
Proof. unfold handleReset. by destruct (savedConfig st). Qed.

Lemma shape_savedConfig_nonempty (st : State) :
  shape_inv st -> savedConfig st <> [].
Proof.
  intros [H _] Hnil. rewrite Hnil in H. apply Forall2_length in H. done.
Qed.

Lemma handleReset_shape (st : State) : shape_inv st -> shape_inv (handleReset st).
Proof.
  intros Hst. pose proof (shape_savedConfig_nonempty st Hst) as Hne.
  destruct Hst as [Hb _]. split.
  - exact Hb.
  - rewrite (handleReset_blocks st Hne). apply shows_toBlock.
Qed.

Lemma onSave_shape (i : string) (newInitial : Z) (s s' : Storage)
    (st st' : State) :
  shape_inv st -> onSave i newInitial s st = Returned (s', st') ->
  shape_inv st'.
Proof.
  intros [Hb Hs] Heq.
  destruct (onSave_returned _ _ _ _ _ _ Heq) as (Hblocks & Hsaved & _).
  split; rewrite Hsaved.
  - apply Forall2_fmap_r. eapply Forall2_impl; [exact Hb|].
    intros d c Hdc. simpl. by destruct (decide (Config.id c = i)).
  - rewrite Hblocks. apply Forall2_fmap. eapply Forall2_impl; [exact Hs|].
    intros c b (Hid & Hname & Hsrc & Hinit). simpl.
    destruct (decide (Config.id c = i)) as [Hc|Hc];
      destruct (decide (Block.id b = i)) as [Hbi|Hbi]; try congruence;
      by repeat split.
Qed.

Lemma step_shape (w : World) (e : event) :
  shape_inv (page w) -> shape_inv (page (step w e)).
Proof.
  intros Hp. destruct e as [|t0 now r|t0 now r|now r| |i n]; simpl.
  - apply mount_shape.
  - pose proof (handleMulai_same_or_drawn t0 now r (page w)) as H.
    destruct (handleMulai t0 now r (page w)) as [st fr].
    by eapply same_or_drawn_shape.
  - pose proof (handleAcak_same_or_drawn t0 now r (page w)) as H.
    destruct (handleAcak t0 now r (page w)) as [st fr].
    by eapply same_or_drawn_shape.
  - destruct (scheduled w) as [a|]; [|done].
    pose proof (animate_same_or_drawn a now r (page w)) as H.
    destruct (animate a now r (page w)) as [st fr].
    by eapply same_or_drawn_shape.
  - by apply handleReset_shape.
  - destruct (onSave i n (storage w) (page w)) as [[s' st']|] eqn:E; [|done].
    by apply (onSave_shape i n (storage w) s' (page w) st').
Qed.

Lemma run_shape (es : list event) (w : World) :
  shape_inv (page w) -> shape_inv (page (run w es)).
Proof.
  revert w. induction es as [|e es IH]; intros w Hw; [done|].
  simpl. apply IH. by apply step_shape.
Qed.

Lemma initialState_shape : shape_inv initialState.
Proof.
  split; simpl; [apply builtin_entry_refl|apply shows_toBlock].
Qed.

Lemma shape_ids (st : State) :
  shape_inv st -> map Block.id (blocks st) = map Config.id DEFAULT_INITIAL.
Proof.
  intros [Hb Hs].
  transitivity (map Config.id (savedConfig st)).
  - clear Hb. induction Hs as [|c b cs bs [Hid _] _ IH]; simpl; [done|].
    by rewrite Hid, IH.
  - clear Hs. induction Hb as [|d c ds cs [Hid _] _ IH]; simpl; [done|].
    by rewrite Hid, IH.
Qed.

(** X3.  Categories are never created, destroyed, renamed or reordered: in
    every state the page reaches, whatever the storage holds and whatever is
    clicked or entered, the saved configuration lists the eight built-in
    categories in built-in order, and the blocks show it entry by entry: same
    id, name and image, and a starting count equal to the saved one. *)
Theorem page_shape_invariant (s : Storage) (es : list event) :
  let st := page (run (initialWorld s) es) in
  Forall2 builtin_entry DEFAULT_INITIAL (savedConfig st) /\
  Forall2 shows (savedConfig st) (blocks st) /\
  length (blocks st) = 8%nat /\
  map Block.id (blocks st) =
    ["red"; "blue"; "green"; "pink"; "grey"; "orange"; "yellow"; "purple"].
Proof.
  pose proof (run_shape es (initialWorld s) initialState_shape) as Hst.
  simpl. destruct Hst as [Hb Hs]. split; [done|]. split; [done|]. split.
  - rewrite <- (Forall2_length _ _ _ Hs), <- (Forall2_length _ _ _ Hb). done.
  - by rewrite (shape_ids _ (conj Hb Hs)).
Qed.

Lemma animate_flag (a : Animation) (now r : Z) (st : State) :
  isAnimating st = true ->
  isAnimating (animate a now r st).1 = true <->
  is_Some (animate a now r st).2.
Proof.
  intros Hst.
  destruct (Z_lt_le_dec (now - startTime a) (Z.pos (duration a)))
    as [Hearly|Hfinal].
  - destruct (animate_early a now r st Hearly) as [sel ->]. simpl.
    split; [by eexists|done].
  - destruct (animate_final a now r st Hfinal) as [sel ->]. simpl.
    split; [done|]. by intros [? ?].
Qed.

Lemma animateSelection_flag (d : positive) (t0 now r : Z) (st : State) :
  isAnimating st = false ->
  isAnimating (animateSelection d t0 now r st).1 = true <->
  is_Some (animateSelection d t0 now r st).2.
Proof.
  intros Hst. unfold animateSelection.
  destruct (availableBlocks (blocks st)) as [|x [|y l]].
  - simpl. rewrite Hst. split; [done|by intros [? ?]].
  - destruct (pickAndDecrement (blocks st) r (blocks st)) as [[p|] bs'];
      simpl; rewrite Hst; (split; [done|by intros [? ?]]).
  - by apply animate_flag.
Qed.

(** A draw button pressed while [isAnimating] is set does nothing. *)
Lemma click_while_animating (t0 now r : Z) (st : State) :
  isAnimating st = true ->
  handleMulai t0 now r st = (st, None) /\ handleAcak t0 now r st = (st, None).
Proof. intros H. unfold handleMulai, handleAcak. by rewrite H. Qed.

Lemma handleAcak_flag (t0 now r : Z) (st : State) :
  isAnimating st = false ->
  isAnimating (handleAcak t0 now r st).1 = true <->
  is_Some (handleAcak t0 now r st).2.
Proof.
  intros Hst. unfold handleAcak. rewrite Hst. simpl.
  destruct (totalRemaining (blocks st) <=? 0).
  - simpl. rewrite Hst. split; [done|by intros [? ?]].
  - by apply animateSelection_flag.
Qed.

Lemma handleMulai_flag (t0 now r : Z) (st : State) :
  isAnimating st = false ->
  isAnimating (handleMulai t0 now r st).1 = true <->
  is_Some (handleMulai t0 now r st).2.
Proof.
  intros Hst. unfold handleMulai. rewrite Hst. simpl.
  destruct (totalRemaining (blocks st) <=? 0).
  - simpl. rewrite Hst. split; [done|by intros [? ?]].
  - destruct (getSingleRemainingBlock (blocks st)).
    + destruct (pickAndDecrement (blocks st) r (blocks st)) as [[p|] bs'];
        simpl; rewrite Hst; (split; [done|by intros [? ?]]).
    + pose proof (animateSelection_flag 2000 t0 now r st Hst) as H.
      by destruct (animateSelection 2000 t0 now r st) as [st1 fr].
Qed.

Lemma onSave_flags (i : string) (newInitial : Z) (s s' : Storage)
    (st st' : State) :
  onSave i newInitial s st = Returned (s', st') ->
  selected st' = selected st /\
  hasStarted st' = hasStarted st /\
  isAnimating st' = isAnimating st.
Proof.
  unfold onSave, saveConfig, setItem.
  destruct (writable s); [|done]. intros Heq. by injection Heq as <- <-.
Qed.

Lemma step_animating (w : World) (e : event) :
  animating_inv w -> animating_inv (step w e).
Proof.
  unfold animating_inv. intros Hw.
  destruct e as [|t0 now r|t0 now r|now r| |i n]; simpl.
  - done.
  - destruct (isAnimating (page w)) eqn:Hflag.
    + destruct (click_while_animating t0 now r (page w) Hflag) as [-> _].
      simpl. destruct (scheduled w); simpl; by rewrite Hflag.
    + pose proof (handleMulai_flag t0 now r (page w) Hflag) as H.
      destruct (handleMulai t0 now r (page w)) as [st fr]. simpl in *.
      destruct (scheduled w) as [a|];
        [exfalso; assert (false = true) by (apply Hw; by eexists); done|].
      by destruct fr.
  - destruct (isAnimating (page w)) eqn:Hflag.
    + destruct (click_while_animating t0 now r (page w) Hflag) as [_ ->].
      simpl. destruct (scheduled w); simpl; by rewrite Hflag.
    + pose proof (handleAcak_flag t0 now r (page w) Hflag) as H.
      destruct (handleAcak t0 now r (page w)) as [st fr]. simpl in *.
      destruct (scheduled w) as [a|];
        [exfalso; assert (false = true) by (apply Hw; by eexists); done|].
      by destruct fr.
  - destruct (scheduled w) as [a|] eqn:Hs; [|by rewrite Hs].
    assert (Hflag : isAnimating (page w) = true) by (apply Hw; by eexists).
    pose proof (animate_flag a now r (page w) Hflag) as H.
    by destruct (animate a now r (page w)) as [st fr].
  - done.
  - destruct (onSave i n (storage w) (page w)) as [[s' st']|] eqn:E; [|done].
    simpl. destruct (onSave_flags _ _ _ _ _ _ E) as (_ & _ & ->). done.
Qed.

Lemma run_animating (es : list event) (w : World) :
  animating_inv w -> animating_inv (run w es).
Proof.
  revert w. induction es as [|e es IH]; intros w Hw; [done|].
  simpl. apply IH. by apply step_animating.
Qed.

(** X4.  In every state the page reaches, [isAnimating] is set exactly when
    an animation frame is scheduled: the flag that disables the draw buttons
    never outlives the animation, and no frame fires while the flag is
    clear. *)
Theorem animating_iff_scheduled (s : Storage) (es : list event) :
  let w := run (initialWorld s) es in
  isAnimating (page w) = true <-> is_Some (scheduled w).
Proof.
  apply (run_animating es (initialWorld s)). unfold animating_inv. simpl.
  split; [done|by intros [? ?]].
Qed.

(** ** Clicks, resets and cleanup while a cycle runs *)

Lemma step_click_while_animating (w : World) (e : event) :
  isAnimating (page w) = true -> isDrawClick e -> step w e = w.
Proof.
  intros Hflag He.
  destruct e as [|t0 now r|t0 now r| | |]; simpl in He; try done; simpl.
  - destruct (click_while_animating t0 now r (page w) Hflag) as [-> _].
    simpl. destruct (scheduled w) eqn:Hs; simpl; rewrite <- Hs; apply world_eta.
  - destruct (click_while_animating t0 now r (page w) Hflag) as [_ ->].
    simpl. destruct (scheduled w) eqn:Hs; simpl; rewrite <- Hs; apply world_eta.
Qed.

(** Early ticks and clicks on the draw buttons, in any order, while a frame
    is scheduled and [isAnimating] is set. *)
Lemma run_early_or_click (es : list event) (w : World) (a : Animation) :
  scheduled w = Some a ->
  isAnimating (page w) = true ->
  Forall (fun e => early (startTime a) (duration a) e \/ isDrawClick e) es ->
  blocks (page (run w es)) = blocks (page w) /\
  isAnimating (page (run w es)) = true /\
  exists a', scheduled (run w es) = Some a' /\
             startTime a' = startTime a /\
             duration a' = duration a /\
             captured a' = captured a.
Proof.
  revert w a. induction es as [|e es IH]; intros w a Hs Hflag Hall; simpl.
  - split; [done|]. split; [done|]. by exists a.
  - inversion Hall as [|? ? He Hrest]; subst. destruct He as [He|He].
    + destruct (run_early [e] w a Hs ltac:(by constructor))
        as (H1 & _ & _ & H4 & _ & H6). simpl in *.
      destruct (IH (step w e) _ H6 ltac:(by rewrite H4) Hrest)
        as (Hb & Hf & a' & Ha' & ? & ? & ?). simpl in *.
      rewrite Hb, H1. split; [done|]. split; [done|]. by exists a'.
    + rewrite (step_click_while_animating w e Hflag He). by apply IH.
Qed.

(** X5.  While a reveal cycle runs, clicks on the draw buttons are ignored:
    however many clicks are mixed with the ticks before the final one, the
    list of blocks stays as it was, and the final tick applies the updater
    of one single draw, after which no frame is scheduled. *)
Theorem clicks_during_cycle_ignored
    (w : World) (a : Animation) (es : list event) (nowF rF : Z) :
  scheduled w = Some a ->
  isAnimating (page w) = true ->
  Forall (fun e => early (startTime a) (duration a) e \/ isDrawClick e) es ->
  Z.pos (duration a) <= nowF - startTime a ->
  blocks (page (run w es)) = blocks (page w) /\
  (forall e, isDrawClick e -> step (run w es) e = run w es) /\
  let wF := run w (es ++ [Frame nowF rF]) in
  blocks (page wF) = (pickAndDecrement (captured a) rF (blocks (page w))).2 /\
  scheduled wF = None /\
  isAnimating (page wF) = false.
Proof.
  intros Hs Hflag Hall Hfinal.
  destruct (run_early_or_click es w a Hs Hflag Hall)
    as (Hb & Hf & a' & Ha' & Hst & Hd & Hc).
  split; [done|]. split.
  - intros e He. by apply step_click_while_animating.
  - simpl. rewrite run_app. simpl. rewrite Ha'.
    destruct (animate_final a' nowF rF (page (run w es)))
      as [sel ->]; [by rewrite Hst, Hd|].
    simpl. by rewrite Hc, Hb.
Qed.

Lemma clicks_during_cycle_ignored_witness :
  let st := setBlocks initialState samplePool in
  let w :=
    mkWorld (setIsAnimating st true) (Some (startAnimation 2000 0 st))
      (mkStorage true true NoItem) in
  let es := [Frame 0 0; ClickAcak 30 30 1; Frame 900 0; ClickMulai 950 950 2]
  in
  blocks (page (run w es)) = samplePool /\
  blocks (page (run w (es ++ [Frame 2000 4]))) =
    (pickAndDecrement samplePool 4 samplePool).2.
Proof.
  intros st w es.
  destruct (clicks_during_cycle_ignored w (startAnimation 2000 0 st) es
              2000 4) as (Hb & _ & Hf & _).
  - reflexivity.
  - reflexivity.
  - repeat constructor; simpl; (try by right); left; lia.
  - simpl. lia.
  - split; [exact Hb|exact Hf].
Defined.

Lemma toBlock_shows (cfg : list Config.t) (bs : list Block.t) :
  Forall2 shows cfg bs ->
  map Config.toBlock cfg =
    map (fun b => Block.refill b (Block.initial b)) bs.
Proof.
  induction 1 as [|c b cs bs (Hid & Hname & Hsrc & Hinit) _ IH]; simpl;
    [done|].
  rewrite IH. f_equal. unfold Config.toBlock, Block.refill.
  by rewrite Hid, Hname, Hsrc, Hinit.
Qed.

Lemma totalRemaining_refill (bs : list Block.t) :
  totalRemaining (map (fun b => Block.refill b (Block.initial b)) bs) =
    totalStarting bs.
Proof.
  unfold totalRemaining, totalStarting. generalize 0.
  induction bs as [|b bs IH]; intros z; simpl; [done|]. by rewrite IH.
Qed.

(** X6.  In every state the page reaches, a reset changes nothing in the
    list of blocks but the counts, each of which goes back to the starting
    count of its own block, so that the total becomes the sum of the
    starting counts.  It clears [selected] and [hasStarted], leaves the
    saved configuration and [isAnimating] alone, and a second reset changes
    nothing more. *)
Theorem reset_restores_counts (s : Storage) (es : list event) :
  let st := page (run (initialWorld s) es) in
  blocks (handleReset st) =
    map (fun b => Block.refill b (Block.initial b)) (blocks st) /\
  Forall (fun b => Block.count b = Block.initial b) (blocks (handleReset st)) /\
  totalRemaining (blocks (handleReset st)) = totalStarting (blocks st) /\
  selected (handleReset st) = None /\
  hasStarted (handleReset st) = false /\
  savedConfig (handleReset st) = savedConfig st /\
  isAnimating (handleReset st) = isAnimating st /\
  handleReset (handleReset st) = handleReset st.
Proof.
  intros st.
  assert (Hshape : shape_inv st)
    by apply (run_shape es (initialWorld s) initialState_shape).
  clearbody st.
  pose proof (shape_savedConfig_nonempty st Hshape) as Hne.
  assert (Hblocks : blocks (handleReset st) =
                    map (fun b => Block.refill b (Block.initial b))
                      (blocks st)).
  { rewrite (handleReset_blocks st Hne). apply toBlock_shows, Hshape. }
  split; [done|]. split; [|split].
  - rewrite Hblocks. apply Forall_fmap, Forall_true. done.
  - rewrite Hblocks. apply totalRemaining_refill.
  - repeat split.
Qed.

(** X7.  A reset does not cancel a running reveal cycle: the frame stays
    scheduled and [isAnimating] stays set.  The final tick then applies its
    draw, whose index was computed from the list captured before the reset,
    to the refilled list, and [hasStarted] stays false although a block has
    been drawn. *)
Theorem reset_does_not_cancel_cycle
    (w : World) (a : Animation) (nowF rF : Z) :
  scheduled w = Some a ->
  savedConfig (page w) <> [] ->
  Z.pos (duration a) <= nowF - startTime a ->
  let w1 := step w ClickReset in
  let w2 := step w1 (Frame nowF rF) in
  scheduled w1 = Some a /\
  isAnimating (page w1) = isAnimating (page w) /\
  blocks (page w2) =
    (pickAndDecrement (captured a) rF
       (map Config.toBlock (savedConfig (page w)))).2 /\
  (forall p,
     (pickAndDecrement (captured a) rF
        (map Config.toBlock (savedConfig (page w)))).1 = Some p ->
     selected (page w2) = Some p) /\
  hasStarted (page w2) = false /\
  scheduled w2 = None.
Proof.
  intros Hs Hne Hfinal. simpl. rewrite Hs.
  split; [done|]. split; [done|].
  destruct (animate_final a nowF rF (handleReset (page w)) Hfinal)
    as [sel ->]. simpl.
  pose proof (handleReset_blocks (page w) Hne) as Hb.
  unfold handleReset in Hb. simpl in Hb. rewrite Hb.
  repeat split. intros p Hp. by rewrite Hp.
Qed.

Lemma reset_does_not_cancel_cycle_witness :
  let st := setBlocks initialState samplePool in
  let w :=
    mkWorld (setIsAnimating st true) (Some (startAnimation 2000 0 st))
      (mkStorage true true NoItem) in
  map Block.count (blocks (page (run w [ClickReset; Frame 2000 4]))) =
    [6; 6; 5; 6; 6; 6; 6; 6] /\
  hasStarted (page (run w [ClickReset; Frame 2000 4])) = false.
Proof.
  intros st w.
  destruct (reset_does_not_cancel_cycle w (startAnimation 2000 0 st) 2000 4)
    as (_ & _ & Hb & _ & Hh & _); [reflexivity|discriminate|simpl; lia|].
  split; [|exact Hh].
  change (run w [ClickReset; Frame 2000 4])
    with (step (step w ClickReset) (Frame 2000 4)).
  rewrite Hb. reflexivity.
Defined.

(** X8.  Cancelling a cycle before its final tick performs no draw: after
    the cleanup withdraws the scheduled frame, the list of blocks is the one
    the cycle started with, and display refreshes that fire later change
    nothing. *)
Theorem cleanup_cancels_draw
    (w : World) (a : Animation) (ticks more : list event) :
  scheduled w = Some a ->
  Forall (early (startTime a) (duration a)) ticks ->
  Forall isFrame more ->
  let w' := cleanup (run w ticks) in
  blocks (page w') = blocks (page w) /\
  run w' more = w' /\
  blocks (page (run w' more)) = blocks (page w).
Proof.
  intros Hs Hticks Hmore.
  destruct (run_early ticks w a Hs Hticks) as (Hb & _). simpl.
  assert (Hidle : run (cleanup (run w ticks)) more = cleanup (run w ticks))
    by (by apply run_frames_idle).
  split; [done|]. split; [done|]. by rewrite Hidle.
Qed.

Lemma cleanup_cancels_draw_witness :
  let st := setBlocks initialState samplePool in
  let w :=
    mkWorld (setIsAnimating st true) (Some (startAnimation 2000 0 st))
      (mkStorage true true NoItem) in
  blocks (page (run (cleanup (run w [Frame 0 0; Frame 800 0]))
                  [Frame 2000 4; Frame 2016 1])) = samplePool.
Proof.
  intros st w.
  apply (cleanup_cancels_draw w (startAnimation 2000 0 st)
           [Frame 0 0; Frame 800 0] [Frame 2000 4; Frame 2016 1]).
  - reflexivity.
  - repeat constructor; simpl; lia.
  - repeat constructor.
Defined.

(** ** Saving and loading again *)

Lemma DEFAULT_INITIAL_ids_NoDup : NoDup (map Config.id DEFAULT_INITIAL).
Proof.
  apply (bool_decide_unpack (NoDup (map Config.id DEFAULT_INITIAL))).
  by vm_compute.
Qed.

Lemma onSave_readable (i : string) (newInitial : Z) (s s' : Storage)
    (st st' : State) :
  onSave i newInitial s st = Returned (s', st') -> readable s' = readable s.
Proof.
  unfold onSave, saveConfig, setItem.
  destruct (writable s); [|done]. intros Heq. by injection Heq as <- <-.
Qed.

(** In the array written for a configuration of built-in shape, the lookup
    of a built-in id finds the entry at the position of that id. *)
Lemma find_id_written (defaults cfg : list Config.t) (k : nat)
    (d c : Config.t) :
  Forall2 builtin_entry defaults cfg ->
  NoDup (map Config.id defaults) ->
  defaults !! k = Some d -> cfg !! k = Some c ->
  find_id
    (map (fun c => EValue (Some (Config.id c)) (Int (Config.initial c))) cfg)
    (Config.id d) = Returned (Some (Int (Config.initial c))).
Proof.
  intros Hshape Hnodup Hd Hc.
  rewrite <- (take_drop_middle cfg k c Hc), map_app. simpl.
  assert (Hid : Config.id c = Config.id d).
  { rewrite Forall2_lookup in Hshape. specialize (Hshape k).
    rewrite Hd, Hc in Hshape. by inversion Hshape as [? ? [? _]|]. }
  rewrite Hid. apply find_id_first.
  - apply Forall_fmap, Forall_true. done.
  - apply Forall_fmap, Forall_lookup. intros j x Hx. simpl.
    apply lookup_take_Some in Hx as [Hx Hj]. intros Heq.
    injection Heq as Heq.
    destruct (lookup_lt_is_Some_2 defaults j) as [dj Hdj].
    { apply lookup_lt_Some in Hd. lia. }
    assert (Hidj : Config.id x = Config.id dj).
    { rewrite Forall2_lookup in Hshape. specialize (Hshape j).
      rewrite Hdj, Hx in Hshape. by inversion Hshape as [? ? [? _]|]. }
    assert (j = k); [|lia].
    eapply (NoDup_lookup _ _ _ _ Hnodup); rewrite list_lookup_fmap.
    + by rewrite Hdj.
    + rewrite Hd. simpl. congruence.
Qed.

Lemma load_written (cfg : list Config.t) (s : Storage) :
  Forall2 builtin_entry DEFAULT_INITIAL cfg ->
  readable s = true ->
  content s =
    JsonArray
      (map (fun c => EValue (Some (Config.id c)) (Int (Config.initial c)))
         cfg) ->
  forall k d c, DEFAULT_INITIAL !! k = Some d -> cfg !! k = Some c ->
    loadSavedConfig s !! k =
      Some (Config.with_initial d
              (if Config.initial c =? 0 then Config.initial d
               else Config.initial c)).
Proof.
  intros Hshape Hr Hc k d c Hd Hck. unfold loadSavedConfig.
  rewrite (loadSavedConfigFrom_array _ _ _ Hr Hc).
  destruct (merge_lookup DEFAULT_INITIAL
              (map (fun c => EValue (Some (Config.id c))
                               (Int (Config.initial c))) cfg))
    as (m & Hm & _ & Hlook).
  { apply Forall_fmap, Forall_true. done. }
  rewrite Hm. simpl. destruct (Hlook k d Hd) as (found & Hf & ->).
  rewrite (find_id_written DEFAULT_INITIAL cfg k d c Hshape
             DEFAULT_INITIAL_ids_NoDup Hd Hck) in Hf.
  by inversion Hf.
Qed.

(** X9.  Starting counts here are finite numbers, as everywhere in this
    model; JSON has no notation for an infinite one, which is written as
    [null] and falls outside this statement.  From any state the page
    reaches, an edit whose write goes through stores a record that loads
    back, entry by entry, as the saved configuration of the page, except
    that an entry saved with a starting count of zero loads with the
    built-in default instead.  When no saved count is zero, loading returns
    exactly the saved configuration. *)
Theorem save_then_load
    (s0 : Storage) (es : list event) (i : string) (newInitial : Z)
    (s' : Storage) (st' : State) :
  let w := run (initialWorld s0) es in
  readable (storage w) = true ->
  onSave i newInitial (storage w) (page w) = Returned (s', st') ->
  (forall k d c,
     DEFAULT_INITIAL !! k = Some d -> savedConfig st' !! k = Some c ->
     loadSavedConfig s' !! k =
       Some (Config.with_initial d
               (if Config.initial c =? 0 then Config.initial d
                else Config.initial c))) /\
  (Forall (fun c => Config.initial c <> 0) (savedConfig st') ->
   loadSavedConfig s' = savedConfig st').
Proof.
  intros w Hr Hsave.
  assert (Hshape : shape_inv (page w))
    by apply (run_shape es (initialWorld s0) initialState_shape).
  pose proof (onSave_shape _ _ _ _ _ _ Hshape Hsave) as [Hb' _].
  destruct (onSave_returned _ _ _ _ _ _ Hsave) as (_ & Hsaved & Hcontent).
  simpl in Hsaved, Hcontent. rewrite <- Hsaved in Hcontent.
  assert (Hr' : readable s' = true)
    by (by rewrite (onSave_readable _ _ _ _ _ _ Hsave)).
  pose proof (load_written (savedConfig st') s' Hb' Hr' Hcontent) as Hload.
  split; [exact Hload|].
  intros Hnz. apply list_eq. intros k.
  destruct (savedConfig st' !! k) as [c|] eqn:Hc.
  - destruct (lookup_lt_is_Some_2 DEFAULT_INITIAL k) as [d Hd].
    { rewrite (Forall2_length _ _ _ Hb'). by eapply lookup_lt_Some. }
    rewrite (Hload k d c Hd Hc).
    rewrite Forall_lookup in Hnz. specialize (Hnz k c Hc). simpl in Hnz.
    destruct (Z.eqb_spec (Config.initial c) 0); [done|].
    rewrite Forall2_lookup in Hb'. specialize (Hb' k).
    rewrite Hd, Hc in Hb'. inversion Hb' as [? ? (Hid & Hname & Hsrc)|].
    f_equal. unfold Config.with_initial.
    rewrite <- Hid, <- Hname, <- Hsrc. by destruct c.
  - apply lookup_ge_None. apply lookup_ge_None in Hc.
    pose proof (loadSavedConfig_builtin_shape_length s') as Hlen.
    by rewrite Hlen, (Forall2_length _ _ _ Hb').
Qed.

Lemma save_then_load_witness :
  exists (s' : Storage) (st' : State),
    onSave "blue" 9 (mkStorage true true NoItem)
      (page (run (initialWorld (mkStorage true true NoItem)) [Mount])) =
      Returned (s', st') /\
    loadSavedConfig s' = savedConfig st'.
Proof.
  eexists _, _. split; [reflexivity|].
  apply (proj2 (save_then_load (mkStorage true true NoItem) [Mount] "blue" 9
                  _ _ eq_refl eq_refl)).
  repeat constructor; discriminate.
Defined.

(** An edit to zero is kept for the session but reloads as the built-in
    count. *)
Example edit_zero_reloads_default :
  match onSave "blue" 0 (mkStorage true true NoItem) initialState with
  | Returned (s', st') =>
      (map Config.initial (savedConfig st'),
       map Config.initial (loadSavedConfig s'))
  | Thrown => ([], [])
  end = ([6; 0; 6; 6; 6; 6; 6; 6], [6; 6; 6; 6; 6; 6; 6; 6]).
Proof. reflexivity. Qed.

(** ** More on the draw *)

(** X10.  With counts that are whole numbers, not negative and of sum at
    most [2^53], and [r] in [[0, total)], the draw picks position [k]
    exactly when [r] lies in the interval that starts at the sum of the
    counts before [k] and is as long as the count at [k]: the categories
    partition [[0, total)] into consecutive intervals of their counts. *)
Theorem pickedIndex_interval
    (blocks : list Block.t) (r : Z) (k : nat) (b : Block.t) :
  exactCounts blocks ->
  Forall (fun x => 0 <= Block.count x) blocks ->
  blocks !! k = Some b ->
  0 <= r < totalRemaining blocks ->
  pickedIndex blocks r = Z.of_nat k <->
  totalRemaining (take k blocks) <= r <
    totalRemaining (take k blocks) + Block.count b.
Proof.
  intros _ Hnn Hb [Hr0 Hr].
  rewrite <- (first_exceeding_interval blocks r k b Hnn Hb Hr0). split.
  - intros Hpick.
    destruct (in_range_first_exceeding blocks r Hr ltac:(lia)) as [k' Hk'].
    rewrite (pickedIndex_first_exceeding _ _ _ Hk') in Hpick.
    by replace k with k' by lia.
  - apply pickedIndex_first_exceeding.
Qed.

Lemma pickedIndex_interval_witness :
  pickedIndex samplePool 3 = 2 <-> 2 <= 3 < 2 + 3.
Proof.
  apply (pickedIndex_interval samplePool 3 2
           (Block.mk "green" "Hijau" "/green.svg" 3 6)).
  - by vm_compute.
  - repeat constructor; simpl; lia.
  - reflexivity.
  - split; [lia|reflexivity].
Defined.

Lemma draw_step_monotone (blocks : list Block.t) (r : Z) (k : nat)
    (b : Block.t) :
  0 <= r < totalRemaining blocks ->
  blocks !! k = Some b ->
  exists b', (pickAndDecrement blocks r blocks).2 !! k = Some b' /\
    Block.id b' = Block.id b /\
    Block.name b' = Block.name b /\
    Block.src b' = Block.src b /\
    Block.initial b' = Block.initial b /\
    Block.count b - 1 <= Block.count b' <= Block.count b /\
    (Block.count b <= 0 -> b' = b) /\
    (0 <= Block.count b -> 0 <= Block.count b').
Proof.
  intros Hr Hb.
  destruct (pickAndDecrement_in_range blocks r Hr)
    as (k0 & picked & _ & Hp & Hpos & ->). simpl.
  destruct (decide (k = k0)) as [->|Hne].
  - rewrite list_lookup_insert_eq by (by eapply lookup_lt_Some).
    assert (picked = b) as -> by congruence.
    eexists. split; [done|]. simpl. repeat split; lia.
  - rewrite list_lookup_insert_ne by done.
    exists b. split; [done|]. repeat split; lia.
Qed.

(** X11.  On a list whose counts are whole numbers with magnitudes of sum
    at most [2^53], through any sequence of draws, each with [r] in range
    and applied to the list it was computed from, every block keeps its
    position, id, name, image and starting count; its count never goes up
    and drops by at most the number of draws; a count that was not negative
    stays so, and a block that has run out is left exactly as it is. *)
Theorem draws_only_lower_counts
    (blocks : list Block.t) (rs : list Z) (k : nat) (b : Block.t) :
  exactCounts blocks ->
  valid_draws blocks rs ->
  blocks !! k = Some b ->
  length (draws blocks rs) = length blocks /\
  exists b', draws blocks rs !! k = Some b' /\
    Block.id b' = Block.id b /\
    Block.name b' = Block.name b /\
    Block.src b' = Block.src b /\
    Block.initial b' = Block.initial b /\
    Block.count b - Z.of_nat (length rs) <= Block.count b'
      <= Block.count b /\
    (Block.count b <= 0 -> b' = b) /\
    (0 <= Block.count b -> 0 <= Block.count b').
Proof.
  intros _. revert blocks b.
  induction rs as [|r rs IH]; intros blocks b Hv Hb.
  - simpl. split; [done|]. exists b. split; [done|]. repeat split; lia.
  - destruct Hv as [Hr Hv]. simpl.
    destruct (draw_step_monotone blocks r k b Hr Hb)
      as (b1 & Hb1 & Hid & Hname & Hsrc & Hinit & Hcount & Hzero & Hnn).
    destruct (IH _ b1 Hv Hb1)
      as (Hlen & b' & Hb' & Hid' & Hname' & Hsrc' & Hinit' & Hcount' &
          Hzero' & Hnn').
    split.
    + rewrite Hlen.
      destruct (pickAndDecrement_in_range blocks r Hr)
        as (k0 & picked & _ & _ & _ & ->). simpl. apply length_insert.
    + exists b'. split; [done|].
      split; [congruence|]. split; [congruence|]. split; [congruence|].
      split; [congruence|]. split; [lia|]. split.
      * intros Hle. rewrite <- (Hzero Hle). apply Hzero'.
        by rewrite (Hzero Hle).
      * intros H0. apply Hnn'. by apply Hnn.
Qed.

Lemma draws_only_lower_counts_witness :
  exists b', draws samplePool [4; 0; 2] !! 1%nat = Some b' /\
             b' = Block.mk "blue" "Biru" "/blue.svg" 0 6.
Proof.
  destruct (draws_only_lower_counts samplePool [4; 0; 2] 1
              (Block.mk "blue" "Biru" "/blue.svg" 0 6))
    as (_ & b' & Hb' & _ & _ & _ & _ & _ & Hzero & _).
  - by vm_compute.
  - simpl. repeat split; vm_compute; congruence.
  - reflexivity.
  - exists b'. split; [exact Hb'|]. apply Hzero. simpl. lia.
Defined.

(** ** The candidate shown while cycling *)

Lemma progressOf_le_1 (elapsed : Z) (d : positive) :
  (progressOf elapsed d <= 1)%Q.
Proof. unfold progressOf. apply Q.le_min_l. Qed.

Lemma progressOf_final (elapsed : Z) (d : positive) :
  Z.pos d <= elapsed -> progressOf elapsed d = 1%Q.
Proof.
  intros H. unfold progressOf, Qmin, GenericMinMax.gmin.
  destruct (Qcompare 1 (elapsed # d)) eqn:Hc; try done.
  unfold Qcompare in Hc. cbn [Qnum Qden] in Hc.
  apply Z.compare_gt_iff in Hc. lia.
Qed.

Lemma eased_floor_bounds (t : Q) (m : Z) :
  (0 <= t)%Q -> (t <= 1)%Q -> 0 <= m ->
  0 <= Qfloor (easeOut t * inject_Z m) <= m.
Proof.
  intros Ht0 Ht1 Hm. unfold easeOut.
  change ((1 - t) ^ 2)%Q with ((1 - t) * (1 - t))%Q.
  assert (Hm' : (0 <= inject_Z m)%Q) by (unfold Qle; simpl; lia).
  assert (He0 : (0 <= 1 - (1 - t) * (1 - t))%Q) by Lqa.nra.
  assert (He1 : (1 - (1 - t) * (1 - t) <= 1)%Q) by Lqa.nra.
  split.
  - change 0 with (Qfloor (inject_Z 0)). apply Qfloor_resp_le.
    change (inject_Z 0) with 0%Q. by apply Qmult_le_0_compat.
  - rewrite <- (Qfloor_Z m) at 2. apply Qfloor_resp_le.
    rewrite <- (Qmult_1_l (inject_Z m)) at 2.
    by apply Qmult_le_compat_r.
Qed.

Lemma displayIndex_bounds (elapsed : Z) (d : positive) (frameIndex n : Z) :
  0 <= frameIndex -> 1 <= n ->
  0 <= displayIndex (progressOf elapsed d) frameIndex n < n.
Proof.
  intros Hfi Hn. unfold displayIndex.
  pose proof (progressOf_le_1 elapsed d) as Hle.
  destruct (Qlt_le_dec (progressOf elapsed d) (7 # 10)) as [Hscan|Hsettle].
  - apply Z.rem_bound_pos; lia.
  - pose proof (eased_floor_bounds
                  ((progressOf elapsed d - (7 # 10)) / (3 # 10))%Q (n - 1))
      as H.
    destruct H; [| |lia|lia].
    + apply Qle_shift_div_l; [reflexivity|]. lra.
    + apply Qle_shift_div_r; [reflexivity|]. lra.
Qed.

Lemma displayIndex_final (elapsed : Z) (d : positive) (frameIndex n : Z) :
  Z.pos d <= elapsed ->
  displayIndex (progressOf elapsed d) frameIndex n = n - 1.
Proof.
  intros H. rewrite (progressOf_final elapsed d H). unfold displayIndex.
  destruct (Qlt_le_dec 1 (7 # 10)) as [Hlt|_]; [by vm_compute in Hlt|].
  rewrite <- (Qfloor_Z (n - 1)) at 2. apply Qfloor_comp.
  unfold easeOut.
  change ((1 - (1 - (7 # 10)) / (3 # 10)) ^ 2)%Q
    with ((1 - (1 - (7 # 10)) / (3 # 10)) *
          (1 - (1 - (7 # 10)) / (3 # 10)))%Q.
  field.
Qed.

(** X12.  The candidate shown by a tick is never [undefined]: for a cycle
    with at least one available block and a frame counter that is not
    negative, the displayed index lies within [availableBlocks], whatever
    the clock reads, so an early tick sets [selected] to one of the
    available blocks.  At the tick where [progress] reaches [1] the index is
    that of the last available block.  (Exact rational arithmetic stands
    for the double precision of the code.) *)
Theorem displayed_candidate_available
    (a : Animation) (now r : Z) (st : State) :
  available a <> [] ->
  0 <= frameIndex a ->
  let n := Z.of_nat (length (available a)) in
  let progress := progressOf (now - startTime a) (duration a) in
  0 <= displayIndex progress (frameIndex a + 1) n < n /\
  (Z.pos (duration a) <= now - startTime a ->
   displayIndex progress (frameIndex a + 1) n = n - 1) /\
  (now - startTime a < Z.pos (duration a) ->
   exists b, selected (animate a now r st).1 = Some b /\ b ∈ available a).
Proof.
  intros Hne Hfi n progress.
  assert (Hn : 1 <= n).
  { unfold n. destruct (available a); [done|simpl; lia]. }
  pose proof (displayIndex_bounds (now - startTime a) (duration a)
                (frameIndex a + 1) n ltac:(lia) Hn) as Hb.
  split; [exact Hb|]. split; [apply displayIndex_final|].
  intros Hearly. unfold animate.
  destruct (Qlt_le_dec _ 1) as [Hlt|Hge].
  - simpl. fold n. fold progress.
    set (i := displayIndex progress (frameIndex a + 1) n).
    assert (Hi : 0 <= i < n) by exact Hb.
    unfold js_index. destruct (Z.ltb_spec i 0); [lia|].
    destruct (lookup_lt_is_Some_2 (available a) (Z.to_nat i)) as [b Hbi].
    { unfold n in Hi. lia. }
    exists b. split; [done|]. apply list_elem_of_lookup. by eexists.
  - apply (proj2 (progress_lt_1 _ _)) in Hearly. exfalso.
    by apply (Qlt_not_le _ _ Hearly).
Qed.

Lemma displayed_candidate_available_witness :
  let a := startAnimation 2000 0 (setBlocks initialState samplePool) in
  0 <= displayIndex (progressOf (1700 - 0) 2000) (0 + 1) 2 < 2 /\
  exists b, selected (animate a 1700 0 initialState).1 = Some b /\
            b ∈ available a.
Proof.
  intros a.
  destruct (displayed_candidate_available a 1700 0 initialState)
    as (Hb & _ & Hsel); [discriminate|simpl; lia|].
  split; [exact Hb|]. apply Hsel. simpl. lia.
Defined.

(** ** The single remaining block and the two draw buttons *)

Lemma availableBlocks_cons (x : Block.t) (l : list Block.t) :
  availableBlocks (x :: l) =
    if decide (0 < Block.count x) then x :: availableBlocks l
    else availableBlocks l.
Proof. unfold availableBlocks. by rewrite filter_cons. Qed.

Lemma availableBlocks_nil_iff (l : list Block.t) :
  availableBlocks l = [] <->
  forall j b, l !! j = Some b -> Block.count b <= 0.
Proof.
  induction l as [|x l IH]; [by split|].
  rewrite availableBlocks_cons.
  destruct (decide (0 < Block.count x)) as [Hpos|Hneg]; split.
  - done.
  - intros H. specialize (H 0%nat x eq_refl). lia.
  - intros Hnil [|j] b Hb; simpl in Hb.
    + inversion Hb; subst. lia.
    + by apply (proj1 IH Hnil j).
  - intros H. apply IH. intros j b Hb. by apply (H (S j)).
Qed.

Lemma availableBlocks_single_iff (l : list Block.t) (b : Block.t) :
  availableBlocks l = [b] <->
  exists k, l !! k = Some b /\ 0 < Block.count b /\
    forall j b', l !! j = Some b' -> 0 < Block.count b' -> j = k.
Proof.
  induction l as [|x l IH].
  - split; [done|]. by intros (k & Hk & _).
  - rewrite availableBlocks_cons.
    destruct (decide (0 < Block.count x)) as [Hpos|Hneg]; split.
    + intros Heq. injection Heq as -> Hnil. exists 0%nat.
      split; [done|]. split; [done|]. intros [|j] b' Hb' Hb'pos; [done|].
      simpl in Hb'. pose proof (proj1 (availableBlocks_nil_iff l) Hnil j b' Hb').
      lia.
    + intros (k & Hk & Hbpos & Huniq).
      assert (k = 0%nat) as -> by (symmetry; by apply (Huniq 0%nat x)).
      simpl in Hk. inversion Hk; subst. f_equal.
      apply availableBlocks_nil_iff. intros j b' Hb'.
      destruct (Z_lt_le_dec 0 (Block.count b')) as [Hp|Hn]; [|done].
      by specialize (Huniq (S j) b' Hb' Hp).
    + intros Heq. destruct (proj1 IH Heq) as (k & Hk & Hbpos & Huniq).
      exists (S k). split; [done|]. split; [done|].
      intros [|j] b' Hb' Hb'pos; simpl in Hb'.
      * inversion Hb'; subst. lia.
      * f_equal. by apply (Huniq j b').
    + intros (k & Hk & Hbpos & Huniq). apply IH.
      destruct k as [|k]; simpl in Hk.
      * inversion Hk; subst. lia.
      * exists k. split; [done|]. split; [done|].
        intros j b' Hb' Hb'pos.
        by specialize (Huniq (S j) b' Hb' Hb'pos) as [= ->].
Qed.

(** X13.  [getSingleRemainingBlock] returns a block exactly when one
    position, and no other, holds a positive count, and then it returns the
    block at that position; with no positive count, or with two or more, it
    returns nothing. *)
Theorem getSingleRemainingBlock_iff (blocks : list Block.t) (b : Block.t) :
  getSingleRemainingBlock blocks = Some b <->
  exists k, blocks !! k = Some b /\ 0 < Block.count b /\
    forall j b', blocks !! j = Some b' -> 0 < Block.count b' -> j = k.
Proof.
  rewrite <- availableBlocks_single_iff. unfold getSingleRemainingBlock.
  destruct (availableBlocks blocks) as [|x [|y l]]; split; try done.
  - by intros [= ->].
  - by intros [= ->].
Qed.

(** X14.  Whenever the guard lets it through (no animation running, a
    positive total), the first-draw button does exactly what the draw
    button does, single-category shortcut included, and in addition sets
    [hasStarted]; when the guard stops it, neither changes anything. *)
Theorem handleMulai_is_handleAcak_started (t0 now r : Z) (st : State) :
  (isAnimating st = false -> 0 < totalRemaining (blocks st) ->
   handleMulai t0 now r st =
     (setHasStarted (handleAcak t0 now r st).1 true,
      (handleAcak t0 now r st).2)) /\
  (isAnimating st = true \/ totalRemaining (blocks st) <= 0 ->
   handleMulai t0 now r st = (st, None) /\
   handleAcak t0 now r st = (st, None)).
Proof.
  split.
  - intros Hflag Hpos.
    unfold handleMulai, handleAcak, getSingleRemainingBlock, animateSelection.
    rewrite Hflag. simpl.
    destruct (Z.leb_spec (totalRemaining (blocks st)) 0); [lia|].
    destruct (availableBlocks (blocks st)) as [|x [|y l]]; [done| |].
    + by destruct (pickAndDecrement (blocks st) r (blocks st)) as [[p|] bs'].
    + by destruct (animate _ now r (setIsAnimating st true)).
  - intros [Hflag|Hle].
    + by apply click_while_animating.
    + by split; [apply handleMulai_empty|apply handleAcak_empty].
Qed.

Lemma handleMulai_is_handleAcak_started_witness :
  handleMulai 0 0 4 (setBlocks initialState samplePool) =
    (setHasStarted (handleAcak 0 0 4 (setBlocks initialState samplePool)).1
       true,
     (handleAcak 0 0 4 (setBlocks initialState samplePool)).2).
Proof.
  apply (proj1 (handleMulai_is_handleAcak_started 0 0 4
                  (setBlocks initialState samplePool)));
    reflexivity.
Defined.

(** ** Edits one after another *)

Lemma edit_config_commute (i j : string) (n m : Z) (cfg : list Config.t) :
  i <> j ->
  map (fun c => if decide (Config.id c = j)
                then Config.with_initial c m else c)
    (map (fun c => if decide (Config.id c = i)
                   then Config.with_initial c n else c) cfg) =
  map (fun c => if decide (Config.id c = i)
                then Config.with_initial c n else c)
    (map (fun c => if decide (Config.id c = j)
                   then Config.with_initial c m else c) cfg).
Proof.
  intros Hij. induction cfg as [|c cfg IH]; simpl; [done|].
  rewrite IH. f_equal.
  destruct c as [ci cn cs cz]. unfold Config.with_initial. simpl.
  repeat (case_decide; cbn in *); congruence.
Qed.

Lemma edit_blocks_commute (i j : string) (n m : Z) (bs : list Block.t) :
  i <> j ->
  map (fun p => if decide (Block.id p = j) then Block.refill p m else p)
    (map (fun p => if decide (Block.id p = i) then Block.refill p n else p)
       bs) =
  map (fun p => if decide (Block.id p = i) then Block.refill p n else p)
    (map (fun p => if decide (Block.id p = j) then Block.refill p m else p)
       bs).
Proof.
  intros Hij. induction bs as [|b bs IH]; simpl; [done|].
  rewrite IH. f_equal.
  destruct b as [bi bn bs' bc bz]. unfold Block.refill. simpl.
  repeat (case_decide; cbn in *); congruence.
Qed.

Lemma edit_config_twice (i : string) (n m : Z) (cfg : list Config.t) :
  map (fun c => if decide (Config.id c = i)
                then Config.with_initial c m else c)
    (map (fun c => if decide (Config.id c = i)
                   then Config.with_initial c n else c) cfg) =
  map (fun c => if decide (Config.id c = i)
                then Config.with_initial c m else c) cfg.
Proof.
  induction cfg as [|c cfg IH]; simpl; [done|]. rewrite IH. f_equal.
  destruct c as [ci cn cs cz]. unfold Config.with_initial. simpl.
  repeat (case_decide; cbn in *); congruence.
Qed.

Lemma edit_blocks_twice (i : string) (n m : Z) (bs : list Block.t) :
  map (fun p => if decide (Block.id p = i) then Block.refill p m else p)
    (map (fun p => if decide (Block.id p = i) then Block.refill p n else p)
       bs) =
  map (fun p => if decide (Block.id p = i) then Block.refill p m else p) bs.
Proof.
  induction bs as [|b bs IH]; simpl; [done|]. rewrite IH. f_equal.
  destruct b as [bi bn bs' bc bz]. unfold Block.refill. simpl.
  repeat (case_decide; cbn in *); congruence.
Qed.

(** X15.  Edits compose as assignments per category: two edits of
    different categories give the same page state and the same stored
    record in either order, and of two edits of the same category the later
    one wins, as if the earlier had not happened.  Both hold whether or not
    the storage accepts the writes. *)
Theorem edits_compose (i j : string) (n m : Z) (s : Storage) (st : State) :
  (i <> j ->
   (let* (s1, st1) := onSave i n s st in onSave j m s1 st1) =
   (let* (s1, st1) := onSave j m s st in onSave i n s1 st1)) /\
  (let* (s1, st1) := onSave i n s st in onSave i m s1 st1) =
    onSave i m s st.
Proof.
  split.
  - intros Hij. unfold onSave, saveConfig, setItem.
    destruct (writable s) eqn:Hw; [|done]. cbn [bind writable].
    unfold setBlocks, setSavedConfig.
    cbn [blocks savedConfig selected hasStarted isAnimating readable
         writable].
    by rewrite (edit_config_commute i j n m _ Hij),
      (edit_blocks_commute i j n m _ Hij).
  - unfold onSave, saveConfig, setItem.
    destruct (writable s) eqn:Hw; [|done]. cbn [bind writable].
    unfold setBlocks, setSavedConfig.
    cbn [blocks savedConfig selected hasStarted isAnimating readable
         writable].
    by rewrite edit_config_twice, edit_blocks_twice.
Qed.

Lemma edits_compose_witness :
  (let* (s1, st1) := onSave "red" 2 (mkStorage true true NoItem) initialState
   in onSave "blue" 9 s1 st1) =
  (let* (s1, st1) := onSave "blue" 9 (mkStorage true true NoItem) initialState
   in onSave "red" 2 s1 st1).
Proof.
  apply (proj1 (edits_compose "red" "blue" 2 9 (mkStorage true true NoItem)
                  initialState)).
  discriminate.
Defined.
